(** * Sk4pxXfermode: the 4px blend kernels of [src/core/Sk4pxXfermode.h]

    A shallow embedding of the per-pixel transfer-mode kernels
    ([XFERMODE(Name)]), of the coverage wrapper [xfer_aa] with its [Plus]
    specialisation, of [SkT4pxXfermode::xfer32] and of the factory
    [SkCreate4pxXfermode], followed by the properties the specification
    states about them.

    The kernels are written against [Sk4px] and [Sk4px::Wide], which the
    header [Sk4px.h] declares.  That header is not among the sources, so the
    vector primitive is modelled from the contract the specification gives
    for it (section "Data model" and the glossary).  Every operation of the
    primitive treats the pixels it holds independently and identically, so
    the model carries the four channels of one pixel. *)

From Stdlib Require Import ZArith Lia List Bool.
Import ListNotations.
Local Open Scope Z_scope.

(* ------------------------------------------------------------------ *)
(** ** Lanes: 8-bit channels and their 16-bit widening                 *)
(* ------------------------------------------------------------------ *)

Inductive width : Set := W8 | W16.

Definition modulus (w : width) : Z :=
  match w with W8 => 256 | W16 => 65536 end.

(** Unsigned wrap-around of a lane of the given width. *)
Definition wrap (w : width) (x : Z) : Z := x mod modulus w.

(** The value [x] is representable in a lane of width [w]. *)
Definition fits (w : width) (x : Z) : Prop := 0 <= x < modulus w.

Inductive chan : Set := cB | cG | cR | cA.

(** The four channels (B, G, R, A) of one pixel, each a lane of width [w]. *)
Record vec (w : width) : Set := Vec { chB : Z; chG : Z; chR : Z; chA : Z }.
Arguments Vec {w} _ _ _ _.
Arguments chB {w} _.
Arguments chG {w} _.
Arguments chR {w} _.
Arguments chA {w} _.

Definition get {w} (c : chan) (v : vec w) : Z :=
  match c with cB => chB v | cG => chG v | cR => chR v | cA => chA v end.

Definition vmap {w1 w2} (f : Z -> Z) (x : vec w1) : vec w2 :=
  Vec (f (chB x)) (f (chG x)) (f (chR x)) (f (chA x)).

Definition vmap2 {w1 w2 w3} (f : Z -> Z -> Z) (x : vec w1) (y : vec w2) : vec w3 :=
  Vec (f (chB x) (chB y)) (f (chG x) (chG y))
      (f (chR x) (chR y)) (f (chA x) (chA y)).

Definition vmap3 {w1 w2 w3 w4} (f : Z -> Z -> Z -> Z)
    (x : vec w1) (y : vec w2) (z : vec w3) : vec w4 :=
  Vec (f (chB x) (chB y) (chB z)) (f (chG x) (chG y) (chG z))
      (f (chR x) (chR y) (chR z)) (f (chA x) (chA y) (chA z)).

(** Narrow pixels (8-bit channels) and widened pixels (16-bit channels). *)
Definition Sk4px : Set := vec W8.
Definition Wide : Set := vec W16.

(** Every channel is a value of its lane width. *)
Definition valid {w} (v : vec w) : Prop :=
  fits w (chB v) /\ fits w (chG v) /\ fits w (chR v) /\ fits w (chA v).

(** The premultiplied-alpha invariant: every colour channel is at most alpha. *)
Definition premul (p : Sk4px) : Prop :=
  0 <= chB p <= chA p /\ 0 <= chG p <= chA p /\ 0 <= chR p <= chA p /\
  chA p <= 255.

(* ------------------------------------------------------------------ *)
(** ** Lane arithmetic                                                  *)
(* ------------------------------------------------------------------ *)

(** Modelled from the spec: the lane-wise [+], [-] and [<<] of Sk4px.h.
    Lanes are unsigned; a result that does not fit wraps at the lane
    width. *)
Definition lane_add (w : width) (a b : Z) : Z := wrap w (a + b).
Definition lane_sub (w : width) (a b : Z) : Z := wrap w (a - b).
Definition lane_shl (w : width) (a bits : Z) : Z := wrap w (Z.shiftl a bits).

(** Modelled from the spec: [inv()] of Sk4px.h, "per-byte 255 - x". *)
Definition lane_inv (a : Z) : Z := lane_sub W8 255 a.

(** Modelled from the spec: [saturatedAdd] of Sk4px.h, "per-byte addition
    clamped to [0, 255]". *)
Definition lane_saturatedAdd (a b : Z) : Z := Z.min 255 (a + b).

(** Modelled from the spec: the widening multiply of Sk4px.h,
    narrow x narrow -> wide. *)
Definition lane_mulWiden (a b : Z) : Z := wrap W16 (a * b).

(** Modelled from the spec: [approxMulDiv255] of Sk4px.h, "a fast per-byte
    approximation of round(a*b/255) that is exact on endpoints 0 and 255 and
    differs from the exact value by at most 1 elsewhere".  The spec's
    [(a*b + 128) >> 8] is only indicative (it gives 254 for 255*255, so it is
    not exact at 255); the model is [(a*b + a) >> 8] on a 16-bit lane, which
    meets the whole contract (lemmas [approx_zero_l] to [approx_close]). *)
Definition lane_approxMulDiv255 (a b : Z) : Z :=
  Z.shiftr (lane_add W16 (lane_mulWiden a b) a) 8.

(** round(x/255), rounding to nearest: floor(x/255 + 1/2). *)
Definition round_div255 (x : Z) : Z := (2 * x + 255) / 510.

(** Modelled from the spec: [Wide::div255] of Sk4px.h, "the exact rounded
    division round(x/255) on 16-bit lanes, producing valid 8-bit channel
    values". *)
Definition lane_div255 (x : Z) : Z := wrap W8 (round_div255 x).

(** Modelled from the spec: the element-wise compare [<] of Sk4px.h,
    "returning a mask usable by thenElse": all bits of the lane set where the
    comparison holds, none elsewhere. *)
Definition lane_lt (w : width) (a b : Z) : Z :=
  if a <? b then modulus w - 1 else 0.

(** Modelled from the spec: [thenElse] of Sk4px.h, a bitwise select under
    the mask. *)
Definition lane_thenElse (w : width) (m t e : Z) : Z :=
  Z.lor (Z.land m t) (Z.land (Z.lxor m (modulus w - 1)) e).

(** Modelled from the spec: [widenLoHi()] of Sk4px.h, "extend a narrow mask
    into a Wide mask": the byte is copied into both halves of the lane. *)
Definition lane_widenLoHi (a : Z) : Z := Z.lor a (Z.shiftl a 8).

(* ------------------------------------------------------------------ *)
(** ** The pixel primitive [Sk4px] and its widening [Sk4px::Wide]       *)
(* ------------------------------------------------------------------ *)

Module Sk4pxOps.

(** Modelled from the spec: [Sk4px::DupPMColor], "construct from a single
    replicated pixel", a 32-bit value with channels B, G, R, A. *)
Definition DupPMColor (c : Z) : Sk4px :=
  Vec (Z.land c 255) (Z.land (Z.shiftr c 8) 255)
      (Z.land (Z.shiftr c 16) 255) (Z.land (Z.shiftr c 24) 255).

(** Modelled from the spec: the coverage pixel of [MapDstSrcAlpha], one
    coverage byte broadcast "into all four bytes of its lane". *)
Definition DupAlpha (a : Z) : Sk4px := Vec a a a a.

(** Modelled from the spec: [alphas()], the alpha byte broadcast over
    B, G, R, A. *)
Definition alphas (x : Sk4px) : Sk4px :=
  Vec (chA x) (chA x) (chA x) (chA x).

(** Modelled from the spec: [zeroAlphas()] and [zeroColors()]. *)
Definition zeroAlphas (x : Sk4px) : Sk4px := Vec (chB x) (chG x) (chR x) 0.
Definition zeroColors (x : Sk4px) : Sk4px := Vec 0 0 0 (chA x).

(** The remaining operations of Sk4px.h act lane by lane, as modelled
    above; [mul] is the widening [operator*] and [Min] is [Wide::Min]. *)
Definition inv (x : Sk4px) : Sk4px := vmap lane_inv x.
Definition add {w} (x y : vec w) : vec w := vmap2 (lane_add w) x y.
Definition sub {w} (x y : vec w) : vec w := vmap2 (lane_sub w) x y.
Definition saturatedAdd (x y : Sk4px) : Sk4px := vmap2 lane_saturatedAdd x y.
Definition approxMulDiv255 (x y : Sk4px) : Sk4px :=
  vmap2 lane_approxMulDiv255 x y.
Definition mul (x y : Sk4px) : Wide := vmap2 lane_mulWiden x y.
Definition lt {w} (x y : vec w) : vec w := vmap2 (lane_lt w) x y.
Definition thenElse {w} (m t e : vec w) : vec w :=
  vmap3 (lane_thenElse w) m t e.
Definition widenLoHi (x : Sk4px) : Wide := vmap lane_widenLoHi x.
Definition shl (x : Wide) (bits : Z) : Wide :=
  vmap (fun a => lane_shl W16 a bits) x.
Definition Min (x y : Wide) : Wide := vmap2 Z.min x y.
Definition div255 (x : Wide) : Sk4px := vmap lane_div255 x.

End Sk4pxOps.
Import Sk4pxOps.

Declare Scope px_scope.
Delimit Scope px_scope with px.
Bind Scope px_scope with vec.
Infix "+" := add : px_scope.
Infix "-" := sub : px_scope.
Infix "*" := mul : px_scope.
Infix "<" := lt : px_scope.

(* ------------------------------------------------------------------ *)
(** ** The transfer-mode kernels, [XFERMODE(Name)]                      *)
(* ------------------------------------------------------------------ *)

Local Open Scope px_scope.

Definition Clear_Xfer (s d : Sk4px) : Sk4px := DupPMColor 0.
Definition Src_Xfer (s d : Sk4px) : Sk4px := s.
Definition Dst_Xfer (s d : Sk4px) : Sk4px := d.
Definition SrcIn_Xfer (s d : Sk4px) : Sk4px := approxMulDiv255 s (alphas d).
Definition SrcOut_Xfer (s d : Sk4px) : Sk4px :=
  approxMulDiv255 s (inv (alphas d)).
Definition SrcOver_Xfer (s d : Sk4px) : Sk4px :=
  s + approxMulDiv255 d (inv (alphas s)).
Definition DstIn_Xfer (s d : Sk4px) : Sk4px := SrcIn_Xfer d s.
Definition DstOut_Xfer (s d : Sk4px) : Sk4px := SrcOut_Xfer d s.
Definition DstOver_Xfer (s d : Sk4px) : Sk4px := SrcOver_Xfer d s.

(** [ S * Da + (1 - Sa) * D ] *)
Definition SrcATop_Xfer (s d : Sk4px) : Sk4px :=
  div255 (s * alphas d + d * inv (alphas s)).
Definition DstATop_Xfer (s d : Sk4px) : Sk4px := SrcATop_Xfer d s.
(** [ S * (1 - Da) + (1 - Sa) * D ] *)
Definition Xor_Xfer (s d : Sk4px) : Sk4px :=
  div255 (s * inv (alphas d) + d * inv (alphas s)).
(** [ S + D ] *)
Definition Plus_Xfer (s d : Sk4px) : Sk4px := saturatedAdd s d.
(** [ S * D ] *)
Definition Modulate_Xfer (s d : Sk4px) : Sk4px := approxMulDiv255 s d.
(** [ S + D - S * D ], computed as S + (1-S)*D *)
Definition Screen_Xfer (s d : Sk4px) : Sk4px := s + approxMulDiv255 d (inv s).
Definition Multiply_Xfer (s d : Sk4px) : Sk4px :=
  div255 (s * inv (alphas d) + d * inv (alphas s) + s * d).
(** [ Sa + Da - Sa*Da, Sc + Dc - 2*min(Sc*Da, Dc*Sa) ] *)
Definition Difference_Xfer (s d : Sk4px) : Sk4px :=
  let m := div255 (Min (s * alphas d) (d * alphas s)) in
  (s - m) + (d - zeroAlphas m).
(** [ Sa + Da - Sa*Da, Sc + Dc - 2*Sc*Dc ] *)
Definition Exclusion_Xfer (s d : Sk4px) : Sk4px :=
  let p := approxMulDiv255 s d in
  (s - p) + (d - zeroAlphas p).

(** The locals of [HardLight::Xfer], named as in the source. *)
Definition HardLight_srcover (s d : Sk4px) : Sk4px :=
  s + div255 (d * inv (alphas s)).
Definition HardLight_isLite (s d : Sk4px) : Wide :=
  widenLoHi ((alphas s - s) < s).
Definition HardLight_lite (s d : Sk4px) : Wide :=
  let sa := alphas s in
  let da := alphas d in
  sa * da - shl ((da - d) * (sa - s)) 1.
Definition HardLight_dark (s d : Sk4px) : Wide := shl (s * d) 1.
Definition HardLight_both (s d : Sk4px) : Wide :=
  s * inv (alphas d) + d * inv (alphas s).

Definition HardLight_Xfer (s d : Sk4px) : Sk4px :=
  let srcover := HardLight_srcover s d in
  let isLite := HardLight_isLite s d in
  let lite := HardLight_lite s d in
  let dark := HardLight_dark s d in
  let both := HardLight_both s d in
  let alphas := srcover in
  let colors := div255 (both + thenElse isLite lite dark) in
  zeroColors alphas + zeroAlphas colors.
Definition Overlay_Xfer (s d : Sk4px) : Sk4px := HardLight_Xfer d s.

Definition Darken_Xfer (s d : Sk4px) : Sk4px :=
  let sa := alphas s in
  let da := alphas d in
  let sda := div255 (s * da) in
  let dsa := div255 (d * sa) in
  let srcover := s + div255 (d * inv sa) in
  let dstover := d + div255 (s * inv da) in
  let alphas := srcover in
  let colors := thenElse (sda < dsa) srcover dstover in
  zeroColors alphas + zeroAlphas colors.
Definition Lighten_Xfer (s d : Sk4px) : Sk4px :=
  let sa := alphas s in
  let da := alphas d in
  let sda := div255 (s * da) in
  let dsa := div255 (d * sa) in
  let srcover := s + div255 (d * inv sa) in
  let dstover := d + div255 (s * inv da) in
  let alphas := srcover in
  let colors := thenElse (dsa < sda) srcover dstover in
  zeroColors alphas + zeroAlphas colors.

(** The kernel structs, as the template argument [ProcType] ranges over
    them. *)
Inductive ProcType : Set :=
  | Clear | Src | Dst | SrcIn | SrcOut | SrcOver | DstIn | DstOut | DstOver
  | SrcATop | DstATop | Xor | Plus | Modulate | Screen | Multiply
  | Difference | Exclusion | HardLight | Overlay | Darken | Lighten.

(** [ProcType::Xfer]. *)
Definition Xfer (M : ProcType) : Sk4px -> Sk4px -> Sk4px :=
  match M with
  | Clear => Clear_Xfer | Src => Src_Xfer | Dst => Dst_Xfer
  | SrcIn => SrcIn_Xfer | SrcOut => SrcOut_Xfer | SrcOver => SrcOver_Xfer
  | DstIn => DstIn_Xfer | DstOut => DstOut_Xfer | DstOver => DstOver_Xfer
  | SrcATop => SrcATop_Xfer | DstATop => DstATop_Xfer | Xor => Xor_Xfer
  | Plus => Plus_Xfer | Modulate => Modulate_Xfer | Screen => Screen_Xfer
  | Multiply => Multiply_Xfer | Difference => Difference_Xfer
  | Exclusion => Exclusion_Xfer | HardLight => HardLight_Xfer
  | Overlay => Overlay_Xfer | Darken => Darken_Xfer | Lighten => Lighten_Xfer
  end.

(* ------------------------------------------------------------------ *)
(** ** The coverage wrapper [xfer_aa] and its specialisation            *)
(* ------------------------------------------------------------------ *)

(** The primary template: apply the mode, then interpolate by coverage. *)
Definition xfer_aa_generic (M : ProcType) (s d aa : Sk4px) : Sk4px :=
  let bw := Xfer M s d in
  div255 (bw * aa + d * inv aa).

(** [XFERMODE_AA(Plus)]: the clamp happens after the coverage scaling. *)
Definition xfer_aa_Plus (s d aa : Sk4px) : Sk4px :=
  saturatedAdd d (approxMulDiv255 s aa).

(** [xfer_aa<Mode>] after template resolution. *)
Definition xfer_aa (M : ProcType) (s d aa : Sk4px) : Sk4px :=
  match M with
  | Plus => xfer_aa_Plus s d aa
  | _ => xfer_aa_generic M s d aa
  end.

Local Close Scope px_scope.

(* ------------------------------------------------------------------ *)
(** ** [SkT4pxXfermode] and the factory [SkCreate4pxXfermode]           *)
(* ------------------------------------------------------------------ *)

(** Modelled from the spec: the enumeration [SkXfermode::Mode], declared in
    a header that is not among the sources.  It has the 22 enumerators the
    factory's switch names; [kOther_Mode] stands for any further enumerator
    (the non-separable modes Hue, Saturation, Color, Luminosity and the
    like). *)
Inductive Mode : Set :=
  | kClear_Mode | kSrc_Mode | kDst_Mode | kSrcOver_Mode | kDstOver_Mode
  | kSrcIn_Mode | kDstIn_Mode | kSrcOut_Mode | kDstOut_Mode
  | kSrcATop_Mode | kDstATop_Mode | kXor_Mode | kPlus_Mode | kModulate_Mode
  | kScreen_Mode | kMultiply_Mode | kDifference_Mode | kExclusion_Mode
  | kHardLight_Mode | kOverlay_Mode | kDarken_Mode | kLighten_Mode
  | kOther_Mode (tag : nat).

(** [Name::kMode = SkXfermode::k##Name##_Mode]. *)
Definition kMode (M : ProcType) : Mode :=
  match M with
  | Clear => kClear_Mode | Src => kSrc_Mode | Dst => kDst_Mode
  | SrcIn => kSrcIn_Mode | SrcOut => kSrcOut_Mode | SrcOver => kSrcOver_Mode
  | DstIn => kDstIn_Mode | DstOut => kDstOut_Mode | DstOver => kDstOver_Mode
  | SrcATop => kSrcATop_Mode | DstATop => kDstATop_Mode | Xor => kXor_Mode
  | Plus => kPlus_Mode | Modulate => kModulate_Mode | Screen => kScreen_Mode
  | Multiply => kMultiply_Mode | Difference => kDifference_Mode
  | Exclusion => kExclusion_Mode | HardLight => kHardLight_Mode
  | Overlay => kOverlay_Mode | Darken => kDarken_Mode
  | Lighten => kLighten_Mode
  end.

(** The preprocessor symbols the factory tests. *)
Record BuildConfig : Set := {
  SK_CPU_ARM32 : bool;
  SK_ARM_HAS_NEON : bool;
  SK_SUPPORT_LEGACY_XFERMODES : bool
}.

(** The build in which none of the three symbols is defined. *)
Definition default_build : BuildConfig :=
  {| SK_CPU_ARM32 := false; SK_ARM_HAS_NEON := false;
     SK_SUPPORT_LEGACY_XFERMODES := false |}.

(** Modelled from the spec: [Sk4px::MapDstSrc], which walks the first [n]
    pixels of the two buffers and stores [fn dst src] over the destination;
    groups of four and the tail compute the same thing per pixel. *)
Fixpoint MapDstSrc (n : nat) (dst src : list Sk4px)
    (fn : Sk4px -> Sk4px -> Sk4px) : list Sk4px :=
  match n, dst, src with
  | S n', d :: dst', s :: src' => fn d s :: MapDstSrc n' dst' src' fn
  | _, _, _ => dst
  end.

(** Modelled from the spec: [Sk4px::MapDstSrcAlpha], the same walk with a
    coverage byte per pixel, broadcast over the four channels. *)
Fixpoint MapDstSrcAlpha (n : nat) (dst src : list Sk4px) (aa : list Z)
    (fn : Sk4px -> Sk4px -> Sk4px -> Sk4px) : list Sk4px :=
  match n, dst, src, aa with
  | S n', d :: dst', s :: src', a :: aa' =>
      fn d s (DupAlpha a) :: MapDstSrcAlpha n' dst' src' aa' fn
  | _, _, _, _ => dst
  end.

Section Factory.

(** [ProcCoeff], the record the factory forwards to the base class; its
    declaration is not among the sources and nothing here inspects it. *)
Variable ProcCoeff : Type.

(** An [SkT4pxXfermode<ProcType>] object: the [rec] and the kernel it was
    instantiated with. *)
Record SkT4pxXfermode : Type := Create { fRec : ProcCoeff; fProc : ProcType }.

(** The mode handed to the base-class constructor. *)
Definition fMode (x : SkT4pxXfermode) : Mode := kMode (fProc x).

(** [SkT4pxXfermode::xfer32]; a null [aa] is [None].  The result is the
    destination buffer after the call. *)
Definition xfer32 (x : SkT4pxXfermode) (dst src : list Sk4px) (n : nat)
    (aa : option (list Z)) : list Sk4px :=
  match aa with
  | None =>
      MapDstSrc n dst src (fun dst4 src4 => Xfer (fProc x) src4 dst4)
  | Some aa =>
      MapDstSrcAlpha n dst src aa
        (fun dst4 src4 alpha => xfer_aa (fProc x) src4 dst4 alpha)
  end.

(** [SkCreate4pxXfermode]; [nullptr] is [None].  The switch is compiled
    only when [!defined(SK_CPU_ARM32) || defined(SK_ARM_HAS_NEON)], and its
    last four cases only when [SK_SUPPORT_LEGACY_XFERMODES] is not defined;
    a mode without a case falls to [default: break] and to
    [return nullptr]. *)
Definition SkCreate4pxXfermode (cfg : BuildConfig) (rec : ProcCoeff)
    (mode : Mode) : option SkT4pxXfermode :=
  let legacy := SK_SUPPORT_LEGACY_XFERMODES cfg in
  if negb (SK_CPU_ARM32 cfg) || SK_ARM_HAS_NEON cfg then
    match mode with
    | kClear_Mode => Some (Create rec Clear)
    | kSrc_Mode => Some (Create rec Src)
    | kDst_Mode => Some (Create rec Dst)
    | kSrcOver_Mode => Some (Create rec SrcOver)
    | kDstOver_Mode => Some (Create rec DstOver)
    | kSrcIn_Mode => Some (Create rec SrcIn)
    | kDstIn_Mode => Some (Create rec DstIn)
    | kSrcOut_Mode => Some (Create rec SrcOut)
    | kDstOut_Mode => Some (Create rec DstOut)
    | kSrcATop_Mode => Some (Create rec SrcATop)
    | kDstATop_Mode => Some (Create rec DstATop)
    | kXor_Mode => Some (Create rec Xor)
    | kPlus_Mode => Some (Create rec Plus)
    | kModulate_Mode => Some (Create rec Modulate)
    | kScreen_Mode => Some (Create rec Screen)
    | kMultiply_Mode => Some (Create rec Multiply)
    | kDifference_Mode => Some (Create rec Difference)
    | kExclusion_Mode => Some (Create rec Exclusion)
    | kHardLight_Mode =>
        if legacy then None else Some (Create rec HardLight)
    | kOverlay_Mode =>
        if legacy then None else Some (Create rec Overlay)
    | kDarken_Mode =>
        if legacy then None else Some (Create rec Darken)
    | kLighten_Mode =>
        if legacy then None else Some (Create rec Lighten)
    | kOther_Mode _ => None
    end
  else None.

(** Modelled from the spec: the caller of the factory (section 4.3, "the
    dispatcher"), which is not among the sources: it asks the factory for a
    handler and runs [xfer32] when there is one; otherwise it reports "not
    handled" ([false]) and leaves the destination as it is. *)
Definition dispatch (cfg : BuildConfig) (rec : ProcCoeff) (mode : Mode)
    (dst src : list Sk4px) (n : nat) (aa : option (list Z))
    : bool * list Sk4px :=
  match SkCreate4pxXfermode cfg rec mode with
  | Some x => (true, xfer32 x dst src n aa)
  | None => (false, dst)
  end.

End Factory.

Arguments Create {ProcCoeff} _ _.
Arguments fRec {ProcCoeff} _.
Arguments fProc {ProcCoeff} _.
Arguments fMode {ProcCoeff} _.
Arguments xfer32 {ProcCoeff} _ _ _ _ _.
Arguments SkCreate4pxXfermode {ProcCoeff} _ _ _.
Arguments dispatch {ProcCoeff} _ _ _ _ _ _ _.

(** The 22 mode identifiers the specification lists as supported. *)
Definition supported_modes : list Mode :=
  [ kClear_Mode; kSrc_Mode; kDst_Mode; kSrcOver_Mode; kDstOver_Mode;
    kSrcIn_Mode; kDstIn_Mode; kSrcOut_Mode; kDstOut_Mode; kSrcATop_Mode;
    kDstATop_Mode; kXor_Mode; kPlus_Mode; kModulate_Mode; kScreen_Mode;
    kMultiply_Mode; kDifference_Mode; kExclusion_Mode; kHardLight_Mode;
    kOverlay_Mode; kDarken_Mode; kLighten_Mode ].

(* ------------------------------------------------------------------ *)
(** ** Wide lanes that compute without wrap-around                      *)
(* ------------------------------------------------------------------ *)

(** Lane [c] of the widening product, of the wide sum, of the wide
    difference and of the wide shift is the mathematical value: it neither
    exceeds 16 bits nor falls below 0. *)
Definition mul_fits (c : chan) (x y : Sk4px) : Prop :=
  fits W16 (get c x * get c y).
Definition add_fits (c : chan) (x y : Wide) : Prop :=
  fits W16 (get c x + get c y).
Definition sub_fits (c : chan) (x y : Wide) : Prop :=
  fits W16 (get c x - get c y).
Definition shl_fits (c : chan) (x : Wide) (bits : Z) : Prop :=
  fits W16 (Z.shiftl (get c x) bits).

Local Open Scope px_scope.

(** The wide operations of each kernel, in the order the source performs
    them. *)
Definition SrcATop_fits (c : chan) (s d : Sk4px) : Prop :=
  mul_fits c s (alphas d) /\ mul_fits c d (inv (alphas s)) /\
  add_fits c (s * alphas d) (d * inv (alphas s)).

Definition Xor_fits (c : chan) (s d : Sk4px) : Prop :=
  mul_fits c s (inv (alphas d)) /\ mul_fits c d (inv (alphas s)) /\
  add_fits c (s * inv (alphas d)) (d * inv (alphas s)).

Definition Multiply_fits (c : chan) (s d : Sk4px) : Prop :=
  Xor_fits c s d /\ mul_fits c s d /\
  add_fits c (s * inv (alphas d) + d * inv (alphas s)) (s * d).

Definition Difference_fits (c : chan) (s d : Sk4px) : Prop :=
  mul_fits c s (alphas d) /\ mul_fits c d (alphas s).

(** [lite = sa*da - ((da-d)*(sa-s) << 1)] *)
Definition HardLight_lite_fits (c : chan) (s d : Sk4px) : Prop :=
  let sa := alphas s in
  let da := alphas d in
  mul_fits c sa da /\ mul_fits c (da - d) (sa - s) /\
  shl_fits c ((da - d) * (sa - s)) 1 /\
  sub_fits c (sa * da) (shl ((da - d) * (sa - s)) 1).

(** [dark = s*d << 1] *)
Definition HardLight_dark_fits (c : chan) (s d : Sk4px) : Prop :=
  mul_fits c s d /\ shl_fits c (s * d) 1.

(** [both = s*da.inv() + d*sa.inv()] *)
Definition HardLight_both_fits (c : chan) (s d : Sk4px) : Prop :=
  Xor_fits c s d.

(** HardLight: [srcover], [both], the branch [thenElse] selects on lane
    [c], and the sum handed to [div255]. *)
Definition HardLight_fits (c : chan) (s d : Sk4px) : Prop :=
  mul_fits c d (inv (alphas s)) /\
  HardLight_both_fits c s d /\
  (if get c (HardLight_isLite s d) =? 0
   then HardLight_dark_fits c s d
   else HardLight_lite_fits c s d) /\
  add_fits c (HardLight_both s d)
    (thenElse (HardLight_isLite s d) (HardLight_lite s d)
       (HardLight_dark s d)).

(** Darken and Lighten: [sda], [dsa], [srcover], [dstover]. *)
Definition Darken_fits (c : chan) (s d : Sk4px) : Prop :=
  mul_fits c s (alphas d) /\ mul_fits c d (alphas s) /\
  mul_fits c d (inv (alphas s)) /\ mul_fits c s (inv (alphas d)).

(** The wide operations of kernel [M]; kernels that stay in 8-bit lanes
    have none. *)
Definition wide_fits (M : ProcType) (c : chan) (s d : Sk4px) : Prop :=
  match M with
  | SrcATop => SrcATop_fits c s d
  | DstATop => SrcATop_fits c d s
  | Xor => Xor_fits c s d
  | Multiply => Multiply_fits c s d
  | Difference => Difference_fits c s d
  | HardLight => HardLight_fits c s d
  | Overlay => HardLight_fits c d s
  | Darken | Lighten => Darken_fits c s d
  | _ => True
  end.

(** The wide operations of the generic coverage wrapper. *)
Definition xfer_aa_fits (M : ProcType) (c : chan) (s d aa : Sk4px) : Prop :=
  let bw := Xfer M s d in
  mul_fits c bw aa /\ mul_fits c d (inv aa) /\
  add_fits c (bw * aa) (d * inv aa).

Local Close Scope px_scope.

(** The source-over alpha of the specification,
    [sa + da - round(sa*da/255)]. *)
Definition srcover_alpha_value (s d : Sk4px) : Z :=
  chA s + chA d - round_div255 (chA s * chA d).

(** The modes of which the specification says that their alpha is the
    source-over alpha: all but Clear, Src, Dst, Modulate, Plus, Screen. *)
Definition alpha_claimed_srcover (M : ProcType) : bool :=
  match M with
  | Clear | Src | Dst | Modulate | Plus | Screen => false
  | _ => true
  end.

(** The modes whose alpha lane is computed with exact arithmetic as the
    source-over alpha [sa + da - round(sa*da/255)]. *)
Definition alpha_exact_srcover (M : ProcType) : bool :=
  match M with
  | Multiply | Difference | HardLight | Overlay | Darken | Lighten => true
  | _ => false
  end.

(** The modes whose alpha lane is the source-over alpha computed through
    [approxMulDiv255]. *)
Definition alpha_approx_srcover (M : ProcType) : bool :=
  match M with
  | SrcOver | DstOver | Exclusion => true
  | _ => false
  end.

(** The modes for which a zero source leaves the destination as it is. *)
Definition dst_identity (M : ProcType) : bool :=
  match M with
  | Dst | DstOver | DstOut | Xor | SrcOver | Plus | Screen | Exclusion
  | Difference => true
  | _ => false
  end.

(** Pixels used as concrete inputs. *)
Definition px_a : Sk4px := Vec 10 100 200 200.
Definition px_b : Sk4px := Vec 3 50 128 128.
Definition px_zero : Sk4px := Vec 0 0 0 0.
Definition px_black : Sk4px := Vec 0 0 0 255.
Definition px_white : Sk4px := Vec 255 255 255 255.
Definition px_opaque : Sk4px := Vec 0 0 255 255.
Definition px_grey128 : Sk4px := Vec 128 128 128 128.
Definition px_grey200 : Sk4px := Vec 200 200 200 200.

(** A build with [SK_SUPPORT_LEGACY_XFERMODES] defined, and a 32-bit ARM
    build without NEON. *)
Definition legacy_build : BuildConfig :=
  {| SK_CPU_ARM32 := false; SK_ARM_HAS_NEON := false;
     SK_SUPPORT_LEGACY_XFERMODES := true |}.
Definition arm32_build : BuildConfig :=
  {| SK_CPU_ARM32 := true; SK_ARM_HAS_NEON := false;
     SK_SUPPORT_LEGACY_XFERMODES := false |}.

(* ------------------------------------------------------------------ *)
(** ** Predicates for further properties of the kernels                 *)
(* ------------------------------------------------------------------ *)

(** Lane-wise order, minimum and maximum of pixels. *)
Definition px_le (x y : Sk4px) : Prop := forall c : chan, get c x <= get c y.
Definition px_min (x y : Sk4px) : Sk4px := vmap2 Z.min x y.
Definition px_max (x y : Sk4px) : Sk4px := vmap2 Z.max x y.

(** Every lane of [x] lies between the corresponding lanes of [lo] and
    [hi], whichever of the two is larger. *)
Definition px_between (lo hi x : Sk4px) : Prop :=
  forall c : chan,
    Z.min (get c lo) (get c hi) <= get c x <= Z.max (get c lo) (get c hi).

Definition is_alpha (c : chan) : bool :=
  match c with cA => true | _ => false end.

(** The modes that return the destination when the source is the zero
    pixel; the others return the zero pixel. *)
Definition keeps_dst_on_zero_src (M : ProcType) : bool :=
  match M with
  | Clear | Src | SrcIn | DstIn | SrcOut | DstATop | Modulate => false
  | _ => true
  end.

(** The modes that return the source when the destination is the zero
    pixel; the others return the zero pixel. *)
Definition keeps_src_on_zero_dst (M : ProcType) : bool :=
  match M with
  | Clear | Dst | SrcIn | DstIn | DstOut | SrcATop | Modulate => false
  | _ => true
  end.

(** Modes that are symmetric in source and destination (besides Plus). *)
Definition commutes (M : ProcType) : bool :=
  match M with
  | Xor | Multiply | Difference | Darken | Lighten => true
  | _ => false
  end.

(** Modes whose result alpha is at least both input alphas. *)
Definition alpha_never_reduced (M : ProcType) : bool :=
  match M with
  | SrcOver | DstOver | Plus | Screen | Multiply | Difference | Exclusion
  | HardLight | Overlay | Darken | Lighten => true
  | _ => false
  end.

(** Lane [c] of an 8-bit sum or difference is the mathematical value. *)
Definition nadd_fits (c : chan) (x y : Sk4px) : Prop :=
  fits W8 (get c x + get c y).
Definition nsub_fits (c : chan) (x y : Sk4px) : Prop :=
  fits W8 (get c x - get c y).

Local Open Scope px_scope.

(** The 8-bit sums and differences by which each kernel combines its source
    and destination terms.  (The closing
    [alphas.zeroColors() + colors.zeroAlphas()] of HardLight, Darken and
    Lighten adds 0 on every lane and is not listed.) *)
Definition SrcOver_narrow_fits (c : chan) (s d : Sk4px) : Prop :=
  nadd_fits c s (approxMulDiv255 d (inv (alphas s))).

Definition Screen_narrow_fits (c : chan) (s d : Sk4px) : Prop :=
  nadd_fits c s (approxMulDiv255 d (inv s)).

Definition Difference_narrow_fits (c : chan) (s d : Sk4px) : Prop :=
  let m := div255 (Min (s * alphas d) (d * alphas s)) in
  nsub_fits c s m /\ nsub_fits c d (zeroAlphas m) /\
  nadd_fits c (s - m) (d - zeroAlphas m).

Definition Exclusion_narrow_fits (c : chan) (s d : Sk4px) : Prop :=
  let p := approxMulDiv255 s d in
  nsub_fits c s p /\ nsub_fits c d (zeroAlphas p) /\
  nadd_fits c (s - p) (d - zeroAlphas p).

(** [s + (d * sa.inv()).div255()] *)
Definition exact_over_narrow_fits (c : chan) (s d : Sk4px) : Prop :=
  nadd_fits c s (div255 (d * inv (alphas s))).

(** HardLight: [srcover], [sa-s] and [da-d]. *)
Definition HardLight_narrow_fits (c : chan) (s d : Sk4px) : Prop :=
  exact_over_narrow_fits c s d /\
  nsub_fits c (alphas s) s /\ nsub_fits c (alphas d) d.

Definition narrow_fits (M : ProcType) (c : chan) (s d : Sk4px) : Prop :=
  match M with
  | SrcOver => SrcOver_narrow_fits c s d
  | DstOver => SrcOver_narrow_fits c d s
  | Screen => Screen_narrow_fits c s d
  | Difference => Difference_narrow_fits c s d
  | Exclusion => Exclusion_narrow_fits c s d
  | HardLight => HardLight_narrow_fits c s d
  | Overlay => HardLight_narrow_fits c d s
  | Darken | Lighten =>
      exact_over_narrow_fits c s d /\ exact_over_narrow_fits c d s
  | _ => True
  end.

Local Close Scope px_scope.

(** The modes whose case the factory compiles only without
    [SK_SUPPORT_LEGACY_XFERMODES], and the modes that have a case at all. *)
Definition legacy_gated (mode : Mode) : bool :=
  match mode with
  | kHardLight_Mode | kOverlay_Mode | kDarken_Mode | kLighten_Mode => true
  | _ => false
  end.

Definition in_switch (mode : Mode) : bool :=
  match mode with
  | kOther_Mode _ => false
  | _ => true
  end.

(** The factory returned a handler rather than [nullptr]. *)
Definition handled {A : Type} (r : option A) : bool :=
  match r with Some _ => true | None => false end.

(** Two pixels that are not premultiplied. *)
Definition px_bad1 : Sk4px := Vec 255 0 0 0.
Definition px_bad2 : Sk4px := Vec 200 200 200 10.

(** The coverage buffer of [xfer32], when there is one, holds bytes. *)
Definition coverage_ok (aa : option (list Z)) : Prop :=
  match aa with
  | None => True
  | Some l => Forall (fun a => 0 <= a <= 255) l
  end.

(* ================================================================== *)
(** * Properties                                                        *)
(* ================================================================== *)

(* ------------------------------------------------------------------ *)
(** ** Lanes in range compute without wrap-around                       *)
(* ------------------------------------------------------------------ *)

Lemma wrap_small w x : fits w x -> wrap w x = x.
Proof. unfold fits, wrap; intros; apply Z.mod_small; assumption. Qed.

Lemma wrap_fits w x : fits w (wrap w x).
Proof. unfold fits, wrap; apply Z.mod_pos_bound; destruct w; reflexivity. Qed.

Lemma wrap8_small x : 0 <= x <= 255 -> wrap W8 x = x.
Proof. intros; apply wrap_small; unfold fits; simpl; lia. Qed.

Lemma wrap16_small x : 0 <= x <= 65535 -> wrap W16 x = x.
Proof. intros; apply wrap_small; unfold fits; simpl; lia. Qed.

Lemma wrap8_range x : 0 <= wrap W8 x <= 255.
Proof. pose proof (wrap_fits W8 x) as H; unfold fits in H; simpl in H; lia. Qed.

Lemma lane_inv_byte a : 0 <= a <= 255 -> lane_inv a = 255 - a.
Proof. intros; unfold lane_inv, lane_sub; apply wrap8_small; lia. Qed.

Lemma lane_add8 a b : 0 <= a + b <= 255 -> lane_add W8 a b = a + b.
Proof. intros; unfold lane_add; apply wrap8_small; assumption. Qed.

Lemma lane_sub8 a b : 0 <= a - b <= 255 -> lane_sub W8 a b = a - b.
Proof. intros; unfold lane_sub; apply wrap8_small; assumption. Qed.

Lemma lane_add16 a b : 0 <= a + b <= 65535 -> lane_add W16 a b = a + b.
Proof. intros; unfold lane_add; apply wrap16_small; assumption. Qed.

Lemma lane_sub16 a b : 0 <= a - b <= 65535 -> lane_sub W16 a b = a - b.
Proof. intros; unfold lane_sub; apply wrap16_small; assumption. Qed.

Lemma lane_shl1 a : 0 <= 2 * a <= 65535 -> lane_shl W16 a 1 = 2 * a.
Proof.
  intros; unfold lane_shl.
  rewrite Z.shiftl_mul_pow2 by lia.
  change (2 ^ 1) with 2. rewrite (Z.mul_comm a 2).
  apply wrap16_small; assumption.
Qed.

Lemma byte_mul_range a b :
  0 <= a <= 255 -> 0 <= b <= 255 -> 0 <= a * b <= 65025.
Proof. intros; nia. Qed.

Lemma lane_mulWiden_byte a b :
  0 <= a <= 255 -> 0 <= b <= 255 -> lane_mulWiden a b = a * b.
Proof.
  intros Ha Hb; unfold lane_mulWiden.
  pose proof (byte_mul_range a b Ha Hb).
  apply wrap16_small; lia.
Qed.

(** On bytes [approxMulDiv255] is [(a*b + a) / 256]. *)
Lemma lane_approx_byte a b :
  0 <= a <= 255 -> 0 <= b <= 255 ->
  lane_approxMulDiv255 a b = (a * b + a) / 256.
Proof.
  intros Ha Hb; unfold lane_approxMulDiv255.
  pose proof (byte_mul_range a b Ha Hb).
  rewrite lane_mulWiden_byte by assumption.
  rewrite lane_add16 by lia.
  rewrite Z.shiftr_div_pow2 by lia. reflexivity.
Qed.

Lemma lane_approx_range a b :
  0 <= a <= 255 -> 0 <= b <= 255 -> 0 <= lane_approxMulDiv255 a b <= a.
Proof.
  intros Ha Hb. rewrite lane_approx_byte by assumption.
  pose proof (byte_mul_range a b Ha Hb).
  split.
  - apply Z.div_pos; lia.
  - apply Z.div_le_upper_bound; nia.
Qed.

Lemma round_div255_mono x y : x <= y -> round_div255 x <= round_div255 y.
Proof. intros; unfold round_div255; apply Z.div_le_mono; lia. Qed.

Lemma round_div255_mul255 k : round_div255 (255 * k) = k.
Proof.
  unfold round_div255.
  replace (2 * (255 * k) + 255) with (255 + k * 510) by lia.
  rewrite Z.div_add by lia. reflexivity.
Qed.

(** Bounds on round(x/255): at most [k] when [x <= 255 * k]. *)
Lemma round_div255_bounds x k :
  0 <= x <= 255 * k -> 0 <= round_div255 x <= k.
Proof.
  intros H. split.
  - unfold round_div255; apply Z.div_pos; lia.
  - rewrite <- (round_div255_mul255 k). apply round_div255_mono; lia.
Qed.

(** Rounding commutes with subtraction from a multiple of 255, because
    x/255 never falls on a half. *)
Lemma round_div255_compl k x :
  round_div255 (255 * k - x) = k - round_div255 x.
Proof. unfold round_div255. Z.div_mod_to_equations. lia. Qed.

Lemma lane_div255_small x :
  0 <= x <= 65025 -> lane_div255 x = round_div255 x.
Proof.
  intros H; unfold lane_div255.
  pose proof (round_div255_bounds x 255).
  apply wrap8_small; lia.
Qed.

Lemma lane_div255_range x : 0 <= lane_div255 x <= 255.
Proof. apply wrap8_range. Qed.

(* ------------------------------------------------------------------ *)
(** ** Masks                                                            *)
(* ------------------------------------------------------------------ *)

Lemma land_mask_all w x : fits w x -> Z.land (modulus w - 1) x = x.
Proof.
  unfold fits; intros H. rewrite Z.land_comm.
  destruct w; simpl in *.
  - change 255 with (Z.ones 8). rewrite Z.land_ones by lia.
    apply Z.mod_small; simpl; lia.
  - change 65535 with (Z.ones 16). rewrite Z.land_ones by lia.
    apply Z.mod_small; simpl; lia.
Qed.

Lemma lane_thenElse_set w t e :
  fits w t -> lane_thenElse w (modulus w - 1) t e = t.
Proof.
  intros H; unfold lane_thenElse.
  rewrite Z.lxor_nilpotent, Z.land_0_l, Z.lor_0_r.
  apply land_mask_all; assumption.
Qed.

Lemma lane_thenElse_clear w t e : fits w e -> lane_thenElse w 0 t e = e.
Proof.
  intros H; unfold lane_thenElse.
  rewrite Z.land_0_l, Z.lxor_0_l, Z.lor_0_l.
  apply land_mask_all; assumption.
Qed.

(** A comparison mask selects one of its two operands whole. *)
Lemma lane_thenElse_lt w a b t e :
  fits w t -> fits w e ->
  lane_thenElse w (lane_lt w a b) t e = if a <? b then t else e.
Proof.
  intros Ht He; unfold lane_lt. destruct (a <? b).
  - apply lane_thenElse_set; assumption.
  - apply lane_thenElse_clear; assumption.
Qed.

Lemma lane_widenLoHi_lt a b :
  lane_widenLoHi (lane_lt W8 a b) = lane_lt W16 a b.
Proof. unfold lane_lt; destruct (a <? b); reflexivity. Qed.

(* ------------------------------------------------------------------ *)
(** ** [approxMulDiv255] meets the contract of the specification        *)
(* ------------------------------------------------------------------ *)

Lemma approx_zero_l b : 0 <= b <= 255 -> lane_approxMulDiv255 0 b = 0.
Proof. intros; rewrite lane_approx_byte by lia; reflexivity. Qed.

Lemma approx_zero_r a : 0 <= a <= 255 -> lane_approxMulDiv255 a 0 = 0.
Proof.
  intros; rewrite lane_approx_byte by lia.
  rewrite Z.mul_0_r, Z.add_0_l. apply Z.div_small; lia.
Qed.

Lemma approx_255_l b : 0 <= b <= 255 -> lane_approxMulDiv255 255 b = b.
Proof.
  intros; rewrite lane_approx_byte by lia. Z.div_mod_to_equations. lia.
Qed.

Lemma approx_255_r a : 0 <= a <= 255 -> lane_approxMulDiv255 a 255 = a.
Proof.
  intros; rewrite lane_approx_byte by lia.
  replace (a * 255 + a) with (a * 256) by lia. apply Z.div_mul; lia.
Qed.

Lemma approx_close a b :
  0 <= a <= 255 -> 0 <= b <= 255 ->
  round_div255 (a * b) - 1 <= lane_approxMulDiv255 a b
                           <= round_div255 (a * b) + 1.
Proof.
  intros; rewrite lane_approx_byte by lia.
  unfold round_div255. Z.div_mod_to_equations. nia.
Qed.

(* ------------------------------------------------------------------ *)
(** ** From lanes to pixels                                             *)
(* ------------------------------------------------------------------ *)

Lemma premul_get p :
  premul p <-> (forall c, 0 <= get c p <= chA p) /\ chA p <= 255.
Proof.
  unfold premul; split.
  - intros (Hb & Hg & Hr & Ha); split; [intros []; simpl; lia | lia].
  - intros (H & Ha).
    pose proof (H cB); pose proof (H cG); pose proof (H cR).
    simpl in *; lia.
Qed.

Lemma premul_valid p : premul p -> valid p.
Proof. unfold premul, valid, fits; simpl; lia. Qed.

Lemma premul_byte p c : premul p -> 0 <= get c p <= 255.
Proof.
  intros H; apply premul_get in H; destruct H as (H & Ha).
  specialize (H c); lia.
Qed.

(** A pixel whose colour lanes are [f] of the corresponding input lanes and
    whose alpha lane is [g] of the input alphas is premultiplied as soon as
    [f] stays between 0 and [g] on premultiplied lanes. *)
Lemma premul_lanes (f : Z -> Z -> Z -> Z -> Z) (g : Z -> Z -> Z) :
  (forall s sa d da, 0 <= s <= sa -> sa <= 255 -> 0 <= d <= da -> da <= 255 ->
     0 <= f s sa d da <= g sa da /\ g sa da <= 255) ->
  forall s d : Sk4px, premul s -> premul d ->
  premul (Vec (f (chB s) (chA s) (chB d) (chA d))
              (f (chG s) (chA s) (chG d) (chA d))
              (f (chR s) (chA s) (chR d) (chA d))
              (g (chA s) (chA d))).
Proof.
  intros Hf s d (Hb & Hg & Hr & Ha) (Hb' & Hg' & Hr' & Ha').
  unfold premul; cbn [chB chG chR chA].
  pose proof (Hf _ _ _ _ Hb Ha Hb' Ha').
  pose proof (Hf _ _ _ _ Hg Ha Hg' Ha').
  pose proof (Hf _ _ _ _ Hr Ha Hr' Ha').
  lia.
Qed.

(* ------------------------------------------------------------------ *)
(** ** Closed forms of the kernels' lanes                               *)
(* ------------------------------------------------------------------ *)

Ltac zdiv := unfold round_div255; Z.div_mod_to_equations; nia.

(** [s + d.approxMulDiv255(sa.inv())] on one lane. *)
Lemma srcover_lane s sa d :
  0 <= s <= sa -> sa <= 255 -> 0 <= d <= 255 ->
  lane_add W8 s (lane_approxMulDiv255 d (lane_inv sa))
  = s + (d * (255 - sa) + d) / 256.
Proof.
  intros. rewrite lane_inv_byte by lia. rewrite lane_approx_byte by lia.
  apply lane_add8. zdiv.
Qed.

(** [(a*b + c*e).div255()] on one lane. *)
Lemma div255_sum2_lane a b c e :
  0 <= a <= 255 -> 0 <= b <= 255 -> 0 <= c <= 255 -> 0 <= e <= 255 ->
  a * b + c * e <= 65025 ->
  lane_div255 (lane_add W16 (lane_mulWiden a b) (lane_mulWiden c e))
  = round_div255 (a * b + c * e).
Proof.
  intros Ha Hb Hc He H.
  pose proof (byte_mul_range a b Ha Hb). pose proof (byte_mul_range c e Hc He).
  rewrite !lane_mulWiden_byte by assumption.
  rewrite lane_add16 by lia. apply lane_div255_small; lia.
Qed.

(** [(d * sa.inv()).div255()] on one lane. *)
Lemma div255_mul_lane a b :
  0 <= a <= 255 -> 0 <= b <= 255 ->
  lane_div255 (lane_mulWiden a b) = round_div255 (a * b).
Proof.
  intros Ha Hb. pose proof (byte_mul_range a b Ha Hb).
  rewrite lane_mulWiden_byte by assumption. apply lane_div255_small; lia.
Qed.

(** The exact source-over sum [s + (d * sa.inv()).div255()] of HardLight,
    Darken and Lighten. *)
Lemma exact_srcover_lane s sa d :
  0 <= s <= sa -> sa <= 255 -> 0 <= d <= 255 ->
  lane_add W8 s (lane_div255 (lane_mulWiden d (lane_inv sa)))
  = s + round_div255 (d * (255 - sa)).
Proof.
  intros. rewrite lane_inv_byte by lia. rewrite div255_mul_lane by lia.
  apply lane_add8.
  assert (0 <= round_div255 (d * (255 - sa)) <= 255 - sa)
    by (apply round_div255_bounds; nia).
  lia.
Qed.

(** The exact source-over alpha is [sa + da - round(sa*da/255)]. *)
Lemma exact_srcover_alpha sa da :
  0 <= sa <= 255 -> 0 <= da <= 255 ->
  sa + round_div255 (da * (255 - sa)) = sa + da - round_div255 (sa * da).
Proof.
  intros. replace (da * (255 - sa)) with (255 * da - sa * da) by lia.
  rewrite round_div255_compl. lia.
Qed.

Lemma exact_srcover_alpha_le sa da :
  0 <= sa <= 255 -> 0 <= da <= 255 ->
  sa + da - round_div255 (sa * da) <= 255.
Proof.
  intros. rewrite <- exact_srcover_alpha by assumption.
  assert (0 <= round_div255 (da * (255 - sa)) <= 255 - sa)
    by (apply round_div255_bounds; nia).
  lia.
Qed.

Lemma SrcATop_lane s sa d da :
  0 <= s <= sa -> sa <= 255 -> 0 <= d <= 255 -> 0 <= da <= 255 ->
  lane_div255 (lane_add W16 (lane_mulWiden s da)
                            (lane_mulWiden d (lane_inv sa)))
  = round_div255 (s * da + d * (255 - sa)).
Proof.
  intros. rewrite lane_inv_byte by lia.
  apply div255_sum2_lane; try lia. nia.
Qed.

Lemma Xor_lane s sa d da :
  0 <= s <= sa -> sa <= 255 -> 0 <= d <= da -> da <= 255 ->
  lane_div255 (lane_add W16 (lane_mulWiden s (lane_inv da))
                            (lane_mulWiden d (lane_inv sa)))
  = round_div255 (s * (255 - da) + d * (255 - sa)).
Proof.
  intros. rewrite !lane_inv_byte by lia.
  apply div255_sum2_lane; try lia. nia.
Qed.

Lemma Multiply_lane s sa d da :
  0 <= s <= sa -> sa <= 255 -> 0 <= d <= da -> da <= 255 ->
  lane_div255
    (lane_add W16
       (lane_add W16 (lane_mulWiden s (lane_inv da))
                     (lane_mulWiden d (lane_inv sa)))
       (lane_mulWiden s d))
  = round_div255 (s * (255 - da) + d * (255 - sa) + s * d).
Proof.
  intros. rewrite !lane_inv_byte by lia.
  rewrite !lane_mulWiden_byte by lia.
  assert (0 <= s * (255 - da)) by nia.
  assert (0 <= d * (255 - sa)) by nia.
  assert (0 <= s * d) by nia.
  assert (s * (255 - da) + d * (255 - sa) + s * d <= 65025) by nia.
  rewrite (lane_add16 (s * (255 - da))) by lia.
  rewrite lane_add16 by lia.
  apply lane_div255_small; lia.
Qed.

Lemma Screen_lane s d :
  0 <= s <= 255 -> 0 <= d <= 255 ->
  lane_add W8 s (lane_approxMulDiv255 d (lane_inv s))
  = s + (d * (255 - s) + d) / 256.
Proof. intros; apply srcover_lane; lia. Qed.

(** [m = Min(s*da, d*sa).div255()] on one lane. *)
Lemma Difference_m_lane s sa d da :
  0 <= s <= 255 -> 0 <= sa <= 255 -> 0 <= d <= 255 -> 0 <= da <= 255 ->
  lane_div255 (Z.min (lane_mulWiden s da) (lane_mulWiden d sa))
  = round_div255 (Z.min (s * da) (d * sa)).
Proof.
  intros Hs Hsa Hd Hda.
  pose proof (byte_mul_range s da Hs Hda).
  pose proof (byte_mul_range d sa Hd Hsa).
  rewrite !lane_mulWiden_byte by assumption.
  apply lane_div255_small; lia.
Qed.

Lemma Difference_lane s sa d da :
  0 <= s <= sa -> sa <= 255 -> 0 <= d <= da -> da <= 255 ->
  let m := lane_div255 (Z.min (lane_mulWiden s da) (lane_mulWiden d sa)) in
  lane_add W8 (lane_sub W8 s m) (lane_sub W8 d m)
  = s + d - 2 * round_div255 (Z.min (s * da) (d * sa)).
Proof.
  intros Hs Hsa Hd Hda m; subst m.
  rewrite Difference_m_lane by lia.
  assert (0 <= round_div255 (Z.min (s * da) (d * sa)) <= s)
    by (apply round_div255_bounds; nia).
  assert (0 <= round_div255 (Z.min (s * da) (d * sa)) <= d)
    by (apply round_div255_bounds; nia).
  rewrite !lane_sub8 by lia. rewrite lane_add8; [lia|].
  split; [lia|].
  destruct (Z.min_spec (s * da) (d * sa)) as [[? E]|[? E]]; rewrite E; zdiv.
Qed.

Lemma Difference_alpha_lane sa da :
  0 <= sa <= 255 -> 0 <= da <= 255 ->
  let m := lane_div255 (Z.min (lane_mulWiden sa da) (lane_mulWiden da sa)) in
  lane_add W8 (lane_sub W8 sa m) (lane_sub W8 da 0)
  = sa + da - round_div255 (sa * da).
Proof.
  intros Hsa Hda m; subst m.
  rewrite Difference_m_lane by lia.
  rewrite (Z.mul_comm da sa), Z.min_id.
  assert (0 <= round_div255 (sa * da) <= sa)
    by (apply round_div255_bounds; nia).
  assert (0 <= round_div255 (sa * da) <= da)
    by (apply round_div255_bounds; nia).
  pose proof (exact_srcover_alpha_le sa da Hsa Hda).
  rewrite !lane_sub8 by lia. rewrite lane_add8; lia.
Qed.

Lemma Exclusion_lane s d :
  0 <= s <= 255 -> 0 <= d <= 255 ->
  let p := lane_approxMulDiv255 s d in
  lane_add W8 (lane_sub W8 s p) (lane_sub W8 d p)
  = s + d - 2 * ((s * d + s) / 256).
Proof.
  intros Hs Hd p; subst p. rewrite lane_approx_byte by lia.
  assert (0 <= (s * d + s) / 256 <= s) by zdiv.
  assert ((s * d + s) / 256 <= d) by zdiv.
  rewrite !lane_sub8 by lia. rewrite lane_add8; [lia|]. zdiv.
Qed.

Lemma Exclusion_alpha_lane sa da :
  0 <= sa <= 255 -> 0 <= da <= 255 ->
  let p := lane_approxMulDiv255 sa da in
  lane_add W8 (lane_sub W8 sa p) (lane_sub W8 da 0)
  = sa + da - (sa * da + sa) / 256.
Proof.
  intros Hs Hd p; subst p. rewrite lane_approx_byte by lia.
  assert (0 <= (sa * da + sa) / 256 <= sa) by zdiv.
  assert ((sa * da + sa) / 256 <= da) by zdiv.
  rewrite !lane_sub8 by lia. rewrite lane_add8; [lia|]. zdiv.
Qed.

(** The colour lanes of HardLight: [(both + isLite.thenElse(lite, dark))
    .div255()], with the branch the mask selects computed exactly. *)
Lemma HardLight_lane s sa d da :
  0 <= s <= sa -> sa <= 255 -> 0 <= d <= da -> da <= 255 ->
  lane_add W8 0
    (lane_div255
       (lane_add W16
          (lane_add W16 (lane_mulWiden s (lane_inv da))
                        (lane_mulWiden d (lane_inv sa)))
          (lane_thenElse W16
             (lane_widenLoHi (lane_lt W8 (lane_sub W8 sa s) s))
             (lane_sub W16 (lane_mulWiden sa da)
                (lane_shl W16
                   (lane_mulWiden (lane_sub W8 da d) (lane_sub W8 sa s)) 1))
             (lane_shl W16 (lane_mulWiden s d) 1))))
  = round_div255
      (s * (255 - da) + d * (255 - sa)
       + (if sa - s <? s then sa * da - 2 * ((da - d) * (sa - s))
          else 2 * (s * d))).
Proof.
  intros Hs Hsa Hd Hda.
  rewrite lane_widenLoHi_lt.
  rewrite lane_thenElse_lt by apply wrap_fits.
  rewrite !lane_inv_byte by lia.
  rewrite !lane_sub8 by lia.
  rewrite !lane_mulWiden_byte by lia.
  assert (0 <= s * (255 - da)) by nia.
  assert (0 <= d * (255 - sa)) by nia.
  assert (s * (255 - da) + d * (255 - sa) <= 65025) by nia.
  rewrite (lane_add16 (s * (255 - da))) by lia.
  destruct (sa - s <? s) eqn:E.
  - apply Z.ltb_lt in E.
    assert (0 <= 2 * ((da - d) * (sa - s)) <= 65535) by nia.
    assert (0 <= sa * da - 2 * ((da - d) * (sa - s)) <= 65025) by nia.
    assert (s * (255 - da) + d * (255 - sa)
            + (sa * da - 2 * ((da - d) * (sa - s))) <= 65025) by nia.
    rewrite lane_shl1 by lia. rewrite lane_sub16 by lia.
    rewrite lane_add16 by lia. rewrite lane_div255_small by lia.
    pose proof (round_div255_bounds
      (s * (255 - da) + d * (255 - sa)
       + (sa * da - 2 * ((da - d) * (sa - s)))) 255).
    rewrite lane_add8 by lia. lia.
  - apply Z.ltb_ge in E.
    assert (0 <= 2 * (s * d) <= 65535) by nia.
    assert (s * (255 - da) + d * (255 - sa) + 2 * (s * d) <= 65025) by nia.
    rewrite lane_shl1 by lia.
    rewrite lane_add16 by lia. rewrite lane_div255_small by lia.
    pose proof (round_div255_bounds
      (s * (255 - da) + d * (255 - sa) + 2 * (s * d)) 255).
    rewrite lane_add8 by lia. lia.
Qed.

(** The alpha lane of HardLight, Darken and Lighten. *)
Lemma exact_alpha_lane sa da :
  0 <= sa <= 255 -> 0 <= da <= 255 ->
  lane_add W8 (lane_add W8 sa (lane_div255 (lane_mulWiden da (lane_inv sa)))) 0
  = sa + da - round_div255 (sa * da).
Proof.
  intros. rewrite exact_srcover_lane by lia.
  rewrite exact_srcover_alpha by lia.
  pose proof (exact_srcover_alpha_le sa da).
  assert (0 <= round_div255 (sa * da) <= da)
    by (apply round_div255_bounds; nia).
  rewrite lane_add8 by lia. lia.
Qed.

(** The colour lanes of Darken and Lighten: one of the two exact
    source-over sums, chosen whole by the comparison mask. *)
Lemma select_over_lane s sa d da x y :
  0 <= s <= sa -> sa <= 255 -> 0 <= d <= da -> da <= 255 ->
  lane_add W8 0
    (lane_thenElse W8 (lane_lt W8 x y)
       (lane_add W8 s (lane_div255 (lane_mulWiden d (lane_inv sa))))
       (lane_add W8 d (lane_div255 (lane_mulWiden s (lane_inv da)))))
  = if x <? y then s + round_div255 (d * (255 - sa))
    else d + round_div255 (s * (255 - da)).
Proof.
  intros. rewrite lane_thenElse_lt by apply wrap_fits.
  rewrite !exact_srcover_lane by lia.
  assert (0 <= round_div255 (d * (255 - sa)) <= 255 - sa)
    by (apply round_div255_bounds; nia).
  assert (0 <= round_div255 (s * (255 - da)) <= 255 - da)
    by (apply round_div255_bounds; nia).
  destruct (x <? y); rewrite lane_add8 by lia; lia.
Qed.

(** Either source-over sum of a colour lane is bounded by the alpha. *)
Lemma over_le_alpha s sa d da :
  0 <= s <= sa -> sa <= 255 -> 0 <= d <= da -> da <= 255 ->
  s + round_div255 (d * (255 - sa)) <= sa + da - round_div255 (sa * da) /\
  d + round_div255 (s * (255 - da)) <= sa + da - round_div255 (sa * da).
Proof.
  intros. split.
  - rewrite <- exact_srcover_alpha by lia.
    assert (round_div255 (d * (255 - sa)) <= round_div255 (da * (255 - sa)))
      by (apply round_div255_mono; nia).
    lia.
  - replace (sa + da - round_div255 (sa * da))
      with (da + sa - round_div255 (da * sa)) by (f_equal; [lia | f_equal; lia]).
    rewrite <- exact_srcover_alpha by lia.
    assert (round_div255 (s * (255 - da)) <= round_div255 (sa * (255 - da)))
      by (apply round_div255_mono; nia).
    lia.
Qed.

(* ------------------------------------------------------------------ *)
(** ** Every kernel maps premultiplied pixels to a premultiplied pixel  *)
(* ------------------------------------------------------------------ *)

Lemma Clear_premul s d : premul (Clear_Xfer s d).
Proof. unfold premul; simpl; lia. Qed.

Lemma SrcIn_premul s d : premul s -> premul d -> premul (SrcIn_Xfer s d).
Proof.
  revert s d.
  refine (premul_lanes (fun s sa d da => lane_approxMulDiv255 s da)
                       (fun sa da => lane_approxMulDiv255 sa da) _).
  intros. rewrite !lane_approx_byte by lia. zdiv.
Qed.

Lemma SrcOut_premul s d : premul s -> premul d -> premul (SrcOut_Xfer s d).
Proof.
  revert s d.
  refine (premul_lanes
            (fun s sa d da => lane_approxMulDiv255 s (lane_inv da))
            (fun sa da => lane_approxMulDiv255 sa (lane_inv da)) _).
  intros. rewrite !lane_inv_byte by lia.
  rewrite !lane_approx_byte by lia. zdiv.
Qed.

Lemma SrcOver_premul s d : premul s -> premul d -> premul (SrcOver_Xfer s d).
Proof.
  revert s d.
  refine (premul_lanes
    (fun s sa d da => lane_add W8 s (lane_approxMulDiv255 d (lane_inv sa)))
    (fun sa da => lane_add W8 sa (lane_approxMulDiv255 da (lane_inv sa))) _).
  intros. rewrite !srcover_lane by lia. zdiv.
Qed.

Lemma SrcATop_premul s d : premul s -> premul d -> premul (SrcATop_Xfer s d).
Proof.
  revert s d.
  refine (premul_lanes
    (fun s sa d da =>
       lane_div255 (lane_add W16 (lane_mulWiden s da)
                                 (lane_mulWiden d (lane_inv sa))))
    (fun sa da =>
       lane_div255 (lane_add W16 (lane_mulWiden sa da)
                                 (lane_mulWiden da (lane_inv sa)))) _).
  intros. rewrite !SrcATop_lane by lia.
  replace (sa * da + da * (255 - sa)) with (255 * da) by lia.
  rewrite round_div255_mul255.
  split; [|lia]. apply round_div255_bounds. nia.
Qed.

Lemma Xor_premul s d : premul s -> premul d -> premul (Xor_Xfer s d).
Proof.
  revert s d.
  refine (premul_lanes
    (fun s sa d da =>
       lane_div255 (lane_add W16 (lane_mulWiden s (lane_inv da))
                                 (lane_mulWiden d (lane_inv sa))))
    (fun sa da =>
       lane_div255 (lane_add W16 (lane_mulWiden sa (lane_inv da))
                                 (lane_mulWiden da (lane_inv sa)))) _).
  intros. rewrite !Xor_lane by lia.
  pose proof (round_div255_bounds (s * (255 - da) + d * (255 - sa)) 255).
  pose proof (round_div255_bounds (sa * (255 - da) + da * (255 - sa)) 255).
  assert (round_div255 (s * (255 - da) + d * (255 - sa))
          <= round_div255 (sa * (255 - da) + da * (255 - sa)))
    by (apply round_div255_mono; nia).
  assert (0 <= s * (255 - da) + d * (255 - sa) <= 255 * 255) by nia.
  assert (0 <= sa * (255 - da) + da * (255 - sa) <= 255 * 255) by nia.
  lia.
Qed.

Lemma Plus_premul s d : premul s -> premul d -> premul (Plus_Xfer s d).
Proof.
  revert s d.
  refine (premul_lanes (fun s sa d da => lane_saturatedAdd s d)
                       (fun sa da => lane_saturatedAdd sa da) _).
  intros. unfold lane_saturatedAdd. lia.
Qed.

Lemma Modulate_premul s d :
  premul s -> premul d -> premul (Modulate_Xfer s d).
Proof.
  revert s d.
  refine (premul_lanes (fun s sa d da => lane_approxMulDiv255 s d)
                       (fun sa da => lane_approxMulDiv255 sa da) _).
  intros. rewrite !lane_approx_byte by lia. zdiv.
Qed.

Lemma Screen_premul s d : premul s -> premul d -> premul (Screen_Xfer s d).
Proof.
  revert s d.
  refine (premul_lanes
    (fun s sa d da => lane_add W8 s (lane_approxMulDiv255 d (lane_inv s)))
    (fun sa da => lane_add W8 sa (lane_approxMulDiv255 da (lane_inv sa))) _).
  intros. rewrite !Screen_lane by lia. zdiv.
Qed.

Lemma Multiply_premul s d :
  premul s -> premul d -> premul (Multiply_Xfer s d).
Proof.
  revert s d.
  refine (premul_lanes
    (fun s sa d da =>
       lane_div255
         (lane_add W16
            (lane_add W16 (lane_mulWiden s (lane_inv da))
                          (lane_mulWiden d (lane_inv sa)))
            (lane_mulWiden s d)))
    (fun sa da =>
       lane_div255
         (lane_add W16
            (lane_add W16 (lane_mulWiden sa (lane_inv da))
                          (lane_mulWiden da (lane_inv sa)))
            (lane_mulWiden sa da))) _).
  intros. rewrite !Multiply_lane by lia.
  assert (0 <= s * (255 - da) + d * (255 - sa) + s * d) by nia.
  assert (s * (255 - da) + d * (255 - sa) + s * d
          <= sa * (255 - da) + da * (255 - sa) + sa * da) as Hle by nia.
  assert (sa * (255 - da) + da * (255 - sa) + sa * da <= 255 * 255) by nia.
  pose proof (round_div255_bounds
                (s * (255 - da) + d * (255 - sa) + s * d) 255).
  pose proof (round_div255_bounds
                (sa * (255 - da) + da * (255 - sa) + sa * da) 255).
  pose proof (round_div255_mono _ _ Hle).
  lia.
Qed.

Lemma Difference_premul s d :
  premul s -> premul d -> premul (Difference_Xfer s d).
Proof.
  revert s d.
  refine (premul_lanes
    (fun s sa d da =>
       lane_add W8
         (lane_sub W8 s
            (lane_div255 (Z.min (lane_mulWiden s da) (lane_mulWiden d sa))))
         (lane_sub W8 d
            (lane_div255 (Z.min (lane_mulWiden s da) (lane_mulWiden d sa)))))
    (fun sa da =>
       lane_add W8
         (lane_sub W8 sa
            (lane_div255 (Z.min (lane_mulWiden sa da) (lane_mulWiden da sa))))
         (lane_sub W8 da 0)) _).
  intros s sa d da Hs Hsa Hd Hda.
  rewrite (Difference_lane s sa d da) by lia.
  rewrite (Difference_alpha_lane sa da) by lia.
  pose proof (exact_srcover_alpha_le sa da).
  assert (0 <= round_div255 (Z.min (s * da) (d * sa)) <= s)
    by (apply round_div255_bounds; nia).
  assert (0 <= round_div255 (Z.min (s * da) (d * sa)) <= d)
    by (apply round_div255_bounds; nia).
  split; [split; [lia|]|lia].
  destruct (Z.min_spec (s * da) (d * sa)) as [[? E]|[? E]]; rewrite E; zdiv.
Qed.

Lemma Exclusion_premul s d :
  premul s -> premul d -> premul (Exclusion_Xfer s d).
Proof.
  revert s d.
  refine (premul_lanes
    (fun s sa d da =>
       lane_add W8 (lane_sub W8 s (lane_approxMulDiv255 s d))
                   (lane_sub W8 d (lane_approxMulDiv255 s d)))
    (fun sa da =>
       lane_add W8 (lane_sub W8 sa (lane_approxMulDiv255 sa da))
                   (lane_sub W8 da 0)) _).
  intros s sa d da Hs Hsa Hd Hda.
  rewrite (Exclusion_lane s d) by lia.
  rewrite (Exclusion_alpha_lane sa da) by lia.
  zdiv.
Qed.

Lemma HardLight_premul s d :
  premul s -> premul d -> premul (HardLight_Xfer s d).
Proof.
  revert s d.
  refine (premul_lanes
    (fun s sa d da =>
       lane_add W8 0
         (lane_div255
            (lane_add W16
               (lane_add W16 (lane_mulWiden s (lane_inv da))
                             (lane_mulWiden d (lane_inv sa)))
               (lane_thenElse W16
                  (lane_widenLoHi (lane_lt W8 (lane_sub W8 sa s) s))
                  (lane_sub W16 (lane_mulWiden sa da)
                     (lane_shl W16
                        (lane_mulWiden (lane_sub W8 da d) (lane_sub W8 sa s))
                        1))
                  (lane_shl W16 (lane_mulWiden s d) 1)))))
    (fun sa da =>
       lane_add W8
         (lane_add W8 sa (lane_div255 (lane_mulWiden da (lane_inv sa)))) 0)
    _).
  intros s sa d da Hs Hsa Hd Hda.
  rewrite (HardLight_lane s sa d da) by lia.
  rewrite (exact_alpha_lane sa da) by lia.
  pose proof (exact_srcover_alpha_le sa da).
  rewrite <- (round_div255_mul255 (sa + da - round_div255 (sa * da))).
  replace (255 * (sa + da - round_div255 (sa * da)))
    with (255 * (sa + da) - 255 * round_div255 (sa * da)) by lia.
  split; [|rewrite <- Z.mul_sub_distr_l, round_div255_mul255; lia].
  assert (round_div255 (255 * sa + 255 * da - sa * da)
          = sa + da - round_div255 (sa * da)) as Ealpha.
  { replace (255 * sa + 255 * da - sa * da)
      with (255 * (sa + da) - sa * da) by lia.
    apply round_div255_compl. }
  rewrite <- Z.mul_sub_distr_l, round_div255_mul255, <- Ealpha.
  destruct (sa - s <? s) eqn:E.
  - apply Z.ltb_lt in E. split.
    + apply round_div255_bounds with (k := 255). nia.
    + apply round_div255_mono. nia.
  - apply Z.ltb_ge in E. split.
    + apply round_div255_bounds with (k := 255). nia.
    + apply round_div255_mono. nia.
Qed.

Lemma Darken_premul s d : premul s -> premul d -> premul (Darken_Xfer s d).
Proof.
  revert s d.
  refine (premul_lanes
    (fun s sa d da =>
       lane_add W8 0
         (lane_thenElse W8
            (lane_lt W8 (lane_div255 (lane_mulWiden s da))
                        (lane_div255 (lane_mulWiden d sa)))
            (lane_add W8 s (lane_div255 (lane_mulWiden d (lane_inv sa))))
            (lane_add W8 d (lane_div255 (lane_mulWiden s (lane_inv da))))))
    (fun sa da =>
       lane_add W8
         (lane_add W8 sa (lane_div255 (lane_mulWiden da (lane_inv sa)))) 0)
    _).
  intros s sa d da Hs Hsa Hd Hda.
  rewrite (select_over_lane s sa d da) by lia.
  rewrite (exact_alpha_lane sa da) by lia.
  pose proof (exact_srcover_alpha_le sa da).
  pose proof (over_le_alpha s sa d da).
  assert (0 <= round_div255 (d * (255 - sa)))
    by (apply round_div255_bounds with (k := 255); nia).
  assert (0 <= round_div255 (s * (255 - da)))
    by (apply round_div255_bounds with (k := 255); nia).
  destruct (_ <? _); lia.
Qed.

Lemma Lighten_premul s d : premul s -> premul d -> premul (Lighten_Xfer s d).
Proof.
  revert s d.
  refine (premul_lanes
    (fun s sa d da =>
       lane_add W8 0
         (lane_thenElse W8
            (lane_lt W8 (lane_div255 (lane_mulWiden d sa))
                        (lane_div255 (lane_mulWiden s da)))
            (lane_add W8 s (lane_div255 (lane_mulWiden d (lane_inv sa))))
            (lane_add W8 d (lane_div255 (lane_mulWiden s (lane_inv da))))))
    (fun sa da =>
       lane_add W8
         (lane_add W8 sa (lane_div255 (lane_mulWiden da (lane_inv sa)))) 0)
    _).
  intros s sa d da Hs Hsa Hd Hda.
  rewrite (select_over_lane s sa d da) by lia.
  rewrite (exact_alpha_lane sa da) by lia.
  pose proof (exact_srcover_alpha_le sa da).
  pose proof (over_le_alpha s sa d da).
  assert (0 <= round_div255 (d * (255 - sa)))
    by (apply round_div255_bounds with (k := 255); nia).
  assert (0 <= round_div255 (s * (255 - da)))
    by (apply round_div255_bounds with (k := 255); nia).
  destruct (_ <? _); lia.
Qed.

(** Premultiplication is preserved by each of the 22 kernels. *)
Lemma Xfer_premul M s d : premul s -> premul d -> premul (Xfer M s d).
Proof.
  intros Hs Hd; destruct M; cbn [Xfer].
  - apply Clear_premul.
  - exact Hs.
  - exact Hd.
  - apply SrcIn_premul; assumption.
  - apply SrcOut_premul; assumption.
  - apply SrcOver_premul; assumption.
  - apply SrcIn_premul; assumption.
  - apply SrcOut_premul; assumption.
  - apply SrcOver_premul; assumption.
  - apply SrcATop_premul; assumption.
  - apply SrcATop_premul; assumption.
  - apply Xor_premul; assumption.
  - apply Plus_premul; assumption.
  - apply Modulate_premul; assumption.
  - apply Screen_premul; assumption.
  - apply Multiply_premul; assumption.
  - apply Difference_premul; assumption.
  - apply Exclusion_premul; assumption.
  - apply HardLight_premul; assumption.
  - apply HardLight_premul; assumption.
  - apply Darken_premul; assumption.
  - apply Lighten_premul; assumption.
Qed.

(* ------------------------------------------------------------------ *)
(** ** Pixel-level equalities                                           *)
(* ------------------------------------------------------------------ *)

(** Unfold the pixel operations down to lane arithmetic. *)
Ltac to_lanes :=
  cbv [Xfer Clear_Xfer Src_Xfer Dst_Xfer SrcIn_Xfer SrcOut_Xfer SrcOver_Xfer
       DstIn_Xfer DstOut_Xfer DstOver_Xfer SrcATop_Xfer DstATop_Xfer Xor_Xfer
       Plus_Xfer Modulate_Xfer Screen_Xfer Multiply_Xfer Difference_Xfer
       Exclusion_Xfer HardLight_Xfer Overlay_Xfer Darken_Xfer Lighten_Xfer
       HardLight_srcover HardLight_isLite HardLight_lite HardLight_dark
       HardLight_both xfer_aa xfer_aa_generic xfer_aa_Plus
       add sub mul inv alphas approxMulDiv255 saturatedAdd div255 Min lt
       thenElse widenLoHi shl zeroAlphas zeroColors DupAlpha
       vmap vmap2 vmap3 get chB chG chR chA].

Ltac open_premul H :=
  let Hb := fresh "Hb" in let Hg := fresh "Hg" in
  let Hr := fresh "Hr" in let Ha := fresh "Ha" in
  unfold premul in H; cbn [chB chG chR chA] in H;
  destruct H as (Hb & Hg & Hr & Ha).

Lemma DupPMColor_0 : DupPMColor 0 = Vec 0 0 0 0.
Proof. reflexivity. Qed.

Lemma lane_inv_255 : lane_inv 255 = 0.
Proof. reflexivity. Qed.

Lemma lane_inv_0 : lane_inv 0 = 255.
Proof. reflexivity. Qed.

(** Full coverage: [(bw * 255 + d * 0).div255() = bw] on one lane. *)
Lemma lerp_full_lane bw d :
  0 <= bw <= 255 -> 0 <= d <= 255 ->
  lane_div255 (lane_add W16 (lane_mulWiden bw 255)
                            (lane_mulWiden d (lane_inv 255))) = bw.
Proof.
  intros. rewrite lane_inv_255.
  rewrite div255_sum2_lane by lia.
  replace (bw * 255 + d * 0) with (255 * bw) by lia.
  apply round_div255_mul255.
Qed.

(** Zero coverage: [(bw * 0 + d * 255).div255() = d] on one lane. *)
Lemma lerp_zero_lane bw d :
  0 <= bw <= 255 -> 0 <= d <= 255 ->
  lane_div255 (lane_add W16 (lane_mulWiden bw 0)
                            (lane_mulWiden d (lane_inv 0))) = d.
Proof.
  intros. rewrite lane_inv_0.
  rewrite div255_sum2_lane by lia.
  replace (bw * 0 + d * 255) with (255 * d) by lia.
  apply round_div255_mul255.
Qed.

Lemma xfer_aa_generic_full M s d :
  premul s -> premul d ->
  xfer_aa_generic M s d (DupAlpha 255) = Xfer M s d.
Proof.
  intros Hs Hd. pose proof (Xfer_premul M s d Hs Hd) as Hbw.
  unfold xfer_aa_generic. destruct (Xfer M s d) as [b g r a].
  destruct d as [db dg dr da]. open_premul Hbw. open_premul Hd.
  to_lanes. rewrite !lerp_full_lane by lia. reflexivity.
Qed.

Lemma xfer_aa_generic_zero M s d :
  premul s -> premul d ->
  xfer_aa_generic M s d (DupAlpha 0) = d.
Proof.
  intros Hs Hd. pose proof (Xfer_premul M s d Hs Hd) as Hbw.
  unfold xfer_aa_generic. destruct (Xfer M s d) as [b g r a].
  destruct d as [db dg dr da]. open_premul Hbw. open_premul Hd.
  to_lanes. rewrite !lerp_zero_lane by lia. reflexivity.
Qed.

Lemma saturatedAdd_comm s d : saturatedAdd s d = saturatedAdd d s.
Proof.
  unfold saturatedAdd, vmap2, lane_saturatedAdd.
  rewrite (Z.add_comm (chB s)), (Z.add_comm (chG s)),
          (Z.add_comm (chR s)), (Z.add_comm (chA s)).
  reflexivity.
Qed.

Lemma approxMulDiv255_full s : valid s -> approxMulDiv255 s (DupAlpha 255) = s.
Proof.
  destruct s as [b g r a]; unfold valid, fits; simpl; intros (? & ? & ? & ?).
  to_lanes. rewrite !approx_255_r by lia. reflexivity.
Qed.

Lemma approxMulDiv255_zero s :
  valid s -> approxMulDiv255 s (DupAlpha 0) = Vec 0 0 0 0.
Proof.
  destruct s as [b g r a]; unfold valid, fits; simpl; intros (? & ? & ? & ?).
  to_lanes. rewrite !approx_zero_r by lia. reflexivity.
Qed.

Lemma saturatedAdd_zero_r d : valid d -> saturatedAdd d (Vec 0 0 0 0) = d.
Proof.
  destruct d as [b g r a]; unfold valid, fits; simpl; intros (? & ? & ? & ?).
  to_lanes. unfold lane_saturatedAdd.
  rewrite !Z.add_0_r, !Z.min_r by lia. reflexivity.
Qed.

(* ------------------------------------------------------------------ *)
(** ** Wide lanes                                                       *)
(* ------------------------------------------------------------------ *)

Ltac open_fits :=
  cbv [wide_fits xfer_aa_fits SrcATop_fits Xor_fits Multiply_fits
       Difference_fits HardLight_fits HardLight_lite_fits HardLight_dark_fits
       HardLight_both_fits Darken_fits mul_fits add_fits sub_fits shl_fits
       HardLight_isLite HardLight_lite HardLight_dark HardLight_both
       add sub mul inv alphas thenElse lt widenLoHi shl
       vmap vmap2 vmap3 get chB chG chR chA].

Ltac fits16 := unfold fits; cbn [modulus]; nia.

Lemma mul_fits_lane a b : 0 <= a <= 255 -> 0 <= b <= 255 -> fits W16 (a * b).
Proof. intros; fits16. Qed.

Lemma mul_inv_fits_lane a b :
  0 <= a <= 255 -> 0 <= b <= 255 -> fits W16 (a * lane_inv b).
Proof. intros; rewrite lane_inv_byte by lia; fits16. Qed.

Lemma SrcATop_fits_lane s sa d da :
  0 <= s <= sa -> sa <= 255 -> 0 <= d <= 255 -> 0 <= da <= 255 ->
  fits W16 (s * da) /\ fits W16 (d * lane_inv sa) /\
  fits W16 (lane_mulWiden s da + lane_mulWiden d (lane_inv sa)).
Proof.
  intros. rewrite !lane_inv_byte by lia.
  rewrite !lane_mulWiden_byte by lia. repeat split; fits16.
Qed.

Lemma Xor_fits_lane s sa d da :
  0 <= s <= sa -> sa <= 255 -> 0 <= d <= da -> da <= 255 ->
  fits W16 (s * lane_inv da) /\ fits W16 (d * lane_inv sa) /\
  fits W16 (lane_mulWiden s (lane_inv da) + lane_mulWiden d (lane_inv sa)).
Proof.
  intros. rewrite !lane_inv_byte by lia.
  rewrite !lane_mulWiden_byte by lia. repeat split; fits16.
Qed.

Lemma Multiply_fits_lane s sa d da :
  0 <= s <= sa -> sa <= 255 -> 0 <= d <= da -> da <= 255 ->
  (fits W16 (s * lane_inv da) /\ fits W16 (d * lane_inv sa) /\
   fits W16 (lane_mulWiden s (lane_inv da) + lane_mulWiden d (lane_inv sa)))
  /\ fits W16 (s * d) /\
  fits W16 (lane_add W16 (lane_mulWiden s (lane_inv da))
                         (lane_mulWiden d (lane_inv sa))
            + lane_mulWiden s d).
Proof.
  intros. split; [apply Xor_fits_lane; assumption|].
  rewrite !lane_inv_byte by lia. rewrite !lane_mulWiden_byte by lia.
  assert (0 <= s * (255 - da) + d * (255 - sa) <= 65025) by nia.
  rewrite lane_add16 by lia. split; fits16.
Qed.

(** The branch of HardLight that the mask selects, and the sum handed to
    [div255], are exact on every lane. *)
Lemma HardLight_fits_lane s sa d da :
  0 <= s <= sa -> sa <= 255 -> 0 <= d <= da -> da <= 255 ->
  fits W16 (d * lane_inv sa) /\
  (fits W16 (s * lane_inv da) /\ fits W16 (d * lane_inv sa) /\
   fits W16 (lane_mulWiden s (lane_inv da) + lane_mulWiden d (lane_inv sa)))
  /\
  (if lane_widenLoHi (lane_lt W8 (lane_sub W8 sa s) s) =? 0
   then fits W16 (s * d) /\ fits W16 (Z.shiftl (lane_mulWiden s d) 1)
   else fits W16 (sa * da) /\
        fits W16 (lane_sub W8 da d * lane_sub W8 sa s) /\
        fits W16 (Z.shiftl
                    (lane_mulWiden (lane_sub W8 da d) (lane_sub W8 sa s)) 1)
        /\
        fits W16 (lane_mulWiden sa da
                  - lane_shl W16
                      (lane_mulWiden (lane_sub W8 da d) (lane_sub W8 sa s))
                      1))
  /\
  fits W16
    (lane_add W16 (lane_mulWiden s (lane_inv da))
                  (lane_mulWiden d (lane_inv sa))
     + lane_thenElse W16
         (lane_widenLoHi (lane_lt W8 (lane_sub W8 sa s) s))
         (lane_sub W16 (lane_mulWiden sa da)
            (lane_shl W16
               (lane_mulWiden (lane_sub W8 da d) (lane_sub W8 sa s)) 1))
         (lane_shl W16 (lane_mulWiden s d) 1)).
Proof.
  intros Hs Hsa Hd Hda.
  split; [apply mul_inv_fits_lane; lia|].
  split; [apply Xor_fits_lane; assumption|].
  rewrite lane_widenLoHi_lt.
  rewrite lane_thenElse_lt by apply wrap_fits.
  rewrite !lane_inv_byte by lia. rewrite !lane_sub8 by lia.
  rewrite !lane_mulWiden_byte by lia.
  rewrite !Z.shiftl_mul_pow2 by lia. change (2 ^ 1) with 2.
  assert (0 <= s * (255 - da) + d * (255 - sa) <= 65025) by nia.
  rewrite (lane_add16 (s * (255 - da))) by lia.
  unfold lane_lt. destruct (sa - s <? s) eqn:E; cbn [modulus Z.sub Z.eqb].
  - apply Z.ltb_lt in E.
    assert (0 <= 2 * ((da - d) * (sa - s)) <= 65535) by nia.
    assert (0 <= sa * da - 2 * ((da - d) * (sa - s)) <= 65025) by nia.
    rewrite lane_shl1 by lia. rewrite lane_sub16 by lia.
    change (65536 + -1 =? 0) with false; cbv iota.
    repeat split; fits16.
  - apply Z.ltb_ge in E.
    assert (0 <= 2 * (s * d) <= 65535) by nia.
    rewrite lane_shl1 by lia.
    repeat split; fits16.
Qed.

Lemma xfer_aa_fits_lane bw d aa :
  0 <= bw <= 255 -> 0 <= d <= 255 -> 0 <= aa <= 255 ->
  fits W16 (bw * aa) /\ fits W16 (d * lane_inv aa) /\
  fits W16 (lane_mulWiden bw aa + lane_mulWiden d (lane_inv aa)).
Proof.
  intros. rewrite !lane_inv_byte by lia.
  rewrite !lane_mulWiden_byte by lia. repeat split; fits16.
Qed.

Lemma wide_fits_all M c s d : premul s -> premul d -> wide_fits M c s d.
Proof.
  intros Hs Hd. destruct s as [sb sg sr sa], d as [db dg dr da].
  open_premul Hs. open_premul Hd.
  destruct M; try exact I; open_fits.
  - destruct c; apply SrcATop_fits_lane; lia.
  - destruct c; apply SrcATop_fits_lane; lia.
  - destruct c; apply Xor_fits_lane; lia.
  - destruct c; apply Multiply_fits_lane; lia.
  - destruct c; (split; apply mul_fits_lane; lia).
  - destruct c; apply HardLight_fits_lane; lia.
  - destruct c; apply HardLight_fits_lane; lia.
  - destruct c;
      (repeat split;
       first [apply mul_fits_lane; lia | apply mul_inv_fits_lane; lia]).
  - destruct c;
      (repeat split;
       first [apply mul_fits_lane; lia | apply mul_inv_fits_lane; lia]).
Qed.

Lemma xfer_aa_fits_all M c s d aa :
  premul s -> premul d -> valid aa -> xfer_aa_fits M c s d aa.
Proof.
  intros Hs Hd Haa. pose proof (Xfer_premul M s d Hs Hd) as Hbw.
  unfold xfer_aa_fits. destruct (Xfer M s d) as [b g r a].
  destruct d as [db dg dr da], aa as [ab ag ar aa].
  open_premul Hbw. open_premul Hd.
  unfold valid, fits in Haa; cbn [chB chG chR chA modulus] in Haa.
  open_fits. destruct c; apply xfer_aa_fits_lane; lia.
Qed.

(* ------------------------------------------------------------------ *)
(** ** The factory                                                      *)
(* ------------------------------------------------------------------ *)

Lemma supported_modes_kMode (mode : Mode) :
  In mode supported_modes <-> exists M : ProcType, kMode M = mode.
Proof.
  split.
  - unfold supported_modes; cbn [In]. intros H.
    repeat (destruct H as [<- | H];
            [ first
                [ exists Clear; reflexivity | exists Src; reflexivity
                | exists Dst; reflexivity | exists SrcOver; reflexivity
                | exists DstOver; reflexivity | exists SrcIn; reflexivity
                | exists DstIn; reflexivity | exists SrcOut; reflexivity
                | exists DstOut; reflexivity | exists SrcATop; reflexivity
                | exists DstATop; reflexivity | exists Xor; reflexivity
                | exists Plus; reflexivity | exists Modulate; reflexivity
                | exists Screen; reflexivity | exists Multiply; reflexivity
                | exists Difference; reflexivity
                | exists Exclusion; reflexivity
                | exists HardLight; reflexivity | exists Overlay; reflexivity
                | exists Darken; reflexivity | exists Lighten; reflexivity ]
            | ]).
    contradiction.
  - intros (M & <-). destruct M; unfold supported_modes; cbn [In kMode];
      tauto.
Qed.

Lemma not_supported_is_other (mode : Mode) :
  ~ In mode supported_modes -> exists tag, mode = kOther_Mode tag.
Proof.
  intros H. destruct mode; try (exfalso; apply H; unfold supported_modes;
                                cbn [In]; tauto).
  eexists; reflexivity.
Qed.

(* ------------------------------------------------------------------ *)
(** ** The concrete scenarios of the specification                      *)
(* ------------------------------------------------------------------ *)

Example scenario_opaque_over_opaque :
  Xfer SrcOver (Vec 0 0 255 255) (Vec 255 0 0 255) = Vec 0 0 255 255.
Proof. reflexivity. Qed.

Example scenario_half_alpha_source :
  Xfer SrcOver (Vec 0 0 128 128) (Vec 255 0 0 255) = Vec 127 0 128 255.
Proof. reflexivity. Qed.

Example scenario_Clear : Xfer Clear px_a px_b = px_zero.
Proof. reflexivity. Qed.

Example scenario_Plus_coverage :
  xfer_aa Plus (Vec 200 200 200 200) (Vec 100 100 100 100) (DupAlpha 255)
  = px_white.
Proof. reflexivity. Qed.

Example scenario_Multiply :
  Xfer Multiply px_white (Vec 0 0 255 255) = Vec 0 0 255 255.
Proof. reflexivity. Qed.

Example scenario_Difference :
  Xfer Difference px_black px_white = px_white /\
  Xfer Difference px_opaque px_opaque = px_black.
Proof. split; reflexivity. Qed.

(** [xfer32] without coverage applies the kernel pixel by pixel, and with a
    coverage buffer the wrapper. *)
Example scenario_xfer32 :
  xfer32 (Create tt SrcOver) [Vec 255 0 0 255; px_b] [Vec 0 0 128 128; px_opaque]
         2 None
  = [Vec 127 0 128 255; px_opaque] /\
  xfer32 (Create tt Plus) [px_grey200; px_b] [px_grey128; px_a] 2
         (Some [255; 0])
  = [px_white; px_b].
Proof. split; reflexivity. Qed.

(* ================================================================== *)
(** * The properties of the specification                              *)
(* ================================================================== *)

Lemma px_a_premul : premul px_a.
Proof. unfold premul, px_a; simpl; lia. Defined.

Lemma px_b_premul : premul px_b.
Proof. unfold premul, px_b; simpl; lia. Defined.

(** C1. Every kernel preserves premultiplication: for each of the 22 modes
    and every pair of premultiplied pixels, each channel of the result is at
    most the result's alpha. *)
Theorem premul_preservation (M : ProcType) (s d : Sk4px) :
  premul s -> premul d ->
  forall c : chan, get c (Xfer M s d) <= chA (Xfer M s d).
Proof.
  intros Hs Hd c.
  pose proof (Xfer_premul M s d Hs Hd) as H.
  apply premul_get in H. destruct H as (H & _). apply H.
Qed.

Lemma premul_preservation_witness :
  premul px_a /\ premul px_b /\
  forall c : chan, get c (Xfer HardLight px_a px_b)
                   <= chA (Xfer HardLight px_a px_b).
Proof.
  split; [exact px_a_premul|]. split; [exact px_b_premul|].
  exact (premul_preservation HardLight px_a px_b px_a_premul px_b_premul).
Defined.

(** C2 (as stated) fails on the lanes that [thenElse] discards.  For
    [s = d = (0,0,0,255)] the colour lanes have the mask clear, and there
    [(da-d)*(sa-s) << 1 = 130050] does not fit in 16 bits (and
    [sa*da - 130050] is negative); for [s = d = (255,255,255,255)] the mask
    is set, and there [dark = s*d << 1 = 130050] does not fit. *)
Lemma wide_lanes_counterexample :
  premul px_black /\
  get cB (HardLight_isLite px_black px_black) = 0 /\
  ~ HardLight_lite_fits cB px_black px_black /\
  premul px_white /\
  get cB (HardLight_isLite px_white px_white) = 65535 /\
  ~ HardLight_dark_fits cB px_white px_white.
Proof.
  split; [unfold premul; simpl; lia|]. split; [reflexivity|].
  split.
  { intros (_ & _ & H & _). unfold shl_fits, fits in H.
    vm_compute in H. destruct H as (_ & H). discriminate H. }
  split; [unfold premul; simpl; lia|]. split; [reflexivity|].
  intros (_ & H). unfold shl_fits, fits in H.
  vm_compute in H. destruct H as (_ & H). discriminate H.
Qed.

(** C2 (amended). For every kernel and all premultiplied inputs, every wide
    value that reaches a [div255] is computed without wrap-around on every
    lane: the widening products, the sums of SrcATop, DstATop, Xor and
    Multiply, the products of Difference, Darken and Lighten, the sum of the
    generic coverage wrapper, and in HardLight and Overlay [both], the
    branch that the [isLite] mask selects on that lane ([lite] where it is
    set, [dark] where it is clear) and its sum with [both]. *)
Theorem wide_lanes_fit (M : ProcType) (c : chan) (s d aa : Sk4px) :
  premul s -> premul d -> valid aa ->
  wide_fits M c s d /\ xfer_aa_fits M c s d aa.
Proof.
  intros Hs Hd Haa. split.
  - apply wide_fits_all; assumption.
  - apply xfer_aa_fits_all; assumption.
Qed.

Lemma wide_lanes_fit_witness :
  premul px_a /\ premul px_b /\ valid (DupAlpha 128) /\
  wide_fits HardLight cB px_a px_b /\
  xfer_aa_fits HardLight cB px_a px_b (DupAlpha 128).
Proof.
  assert (valid (DupAlpha 128)) as Haa
    by (unfold valid, fits; simpl; lia).
  split; [exact px_a_premul|]. split; [exact px_b_premul|].
  split; [exact Haa|].
  exact (wide_lanes_fit HardLight cB px_a px_b (DupAlpha 128)
           px_a_premul px_b_premul Haa).
Defined.

(** C3 (as stated) fails: the alpha of SrcIn, SrcOut, DstIn, DstOut, SrcATop,
    DstATop and Xor is not the source-over alpha, and the alpha of SrcOver,
    DstOver and Exclusion, which goes through [approxMulDiv255], can be off
    by one.  With [sa = 255, da = 0] the source-over alpha is 255 but SrcIn,
    DstIn, DstOut and SrcATop give 0; with [sa = da = 255] it is 255 but
    SrcOut and Xor give 0; with [sa = 0, da = 255] DstATop gives 0; with
    [sa = da = 1] it is 2 but SrcOver and DstOver give 1; with
    [sa = 1, da = 128] it is 128 but Exclusion gives 129. *)
Lemma alpha_of_srcover_modes_counterexample :
  premul px_black /\ premul px_zero /\
  premul (Vec 0 0 0 1) /\ premul (Vec 0 0 0 128) /\
  alpha_claimed_srcover SrcIn = true /\
  chA (Xfer SrcIn px_black px_zero) <> srcover_alpha_value px_black px_zero /\
  alpha_claimed_srcover DstIn = true /\
  chA (Xfer DstIn px_black px_zero) <> srcover_alpha_value px_black px_zero /\
  alpha_claimed_srcover DstOut = true /\
  chA (Xfer DstOut px_black px_zero) <> srcover_alpha_value px_black px_zero /\
  alpha_claimed_srcover SrcATop = true /\
  chA (Xfer SrcATop px_black px_zero) <> srcover_alpha_value px_black px_zero /\
  alpha_claimed_srcover SrcOut = true /\
  chA (Xfer SrcOut px_black px_black) <> srcover_alpha_value px_black px_black /\
  alpha_claimed_srcover Xor = true /\
  chA (Xfer Xor px_black px_black) <> srcover_alpha_value px_black px_black /\
  alpha_claimed_srcover DstATop = true /\
  chA (Xfer DstATop px_zero px_black) <> srcover_alpha_value px_zero px_black /\
  alpha_claimed_srcover SrcOver = true /\
  chA (Xfer SrcOver (Vec 0 0 0 1) (Vec 0 0 0 1))
    <> srcover_alpha_value (Vec 0 0 0 1) (Vec 0 0 0 1) /\
  alpha_claimed_srcover DstOver = true /\
  chA (Xfer DstOver (Vec 0 0 0 1) (Vec 0 0 0 1))
    <> srcover_alpha_value (Vec 0 0 0 1) (Vec 0 0 0 1) /\
  alpha_claimed_srcover Exclusion = true /\
  chA (Xfer Exclusion (Vec 0 0 0 1) (Vec 0 0 0 128))
    <> srcover_alpha_value (Vec 0 0 0 1) (Vec 0 0 0 128).
Proof.
  unfold premul, px_black, px_zero; cbn [chB chG chR chA].
  repeat split; try lia; try reflexivity; vm_compute; discriminate.
Qed.

(** C3 (amended). For Multiply, Difference, HardLight, Overlay, Darken and
    Lighten the alpha of the result is [sa + da - round(sa*da/255)]; for
    SrcOver, DstOver and Exclusion it is within one of that value. *)
Theorem alpha_of_srcover_modes (M : ProcType) (s d : Sk4px) :
  premul s -> premul d ->
  (alpha_exact_srcover M = true ->
   chA (Xfer M s d) = srcover_alpha_value s d) /\
  (alpha_approx_srcover M = true ->
   srcover_alpha_value s d - 1 <= chA (Xfer M s d)
                               <= srcover_alpha_value s d + 1).
Proof.
  intros Hs Hd. destruct s as [sb sg sr sa], d as [db dg dr da].
  open_premul Hs. open_premul Hd. unfold srcover_alpha_value. cbn [chA].
  assert (round_div255 (da * sa) = round_div255 (sa * da)) as Ec
    by (f_equal; lia).
  split; intros HM; destruct M; try discriminate HM; clear HM; to_lanes.
  - rewrite (Multiply_lane sa sa da da) by lia.
    replace (sa * (255 - da) + da * (255 - sa) + sa * da)
      with (255 * (sa + da) - sa * da) by lia.
    apply round_div255_compl.
  - apply Difference_alpha_lane; lia.
  - apply exact_alpha_lane; lia.
  - rewrite exact_alpha_lane by lia. lia.
  - apply exact_alpha_lane; lia.
  - apply exact_alpha_lane; lia.
  - rewrite srcover_lane by lia. zdiv.
  - rewrite srcover_lane by lia. zdiv.
  - rewrite (Exclusion_alpha_lane sa da) by lia. zdiv.
Qed.

Lemma alpha_of_srcover_modes_witness :
  premul px_a /\ premul px_b /\
  alpha_exact_srcover Darken = true /\ alpha_approx_srcover SrcOver = true /\
  chA (Xfer Darken px_a px_b) = srcover_alpha_value px_a px_b /\
  srcover_alpha_value px_a px_b - 1 <= chA (Xfer SrcOver px_a px_b)
                                    <= srcover_alpha_value px_a px_b + 1.
Proof.
  split; [exact px_a_premul|]. split; [exact px_b_premul|].
  split; [reflexivity|]. split; [reflexivity|]. split.
  - exact (proj1 (alpha_of_srcover_modes Darken px_a px_b
                    px_a_premul px_b_premul) eq_refl).
  - exact (proj2 (alpha_of_srcover_modes SrcOver px_a px_b
                    px_a_premul px_b_premul) eq_refl).
Defined.

(** C4 (as stated) fails for DstIn and DstATop: with a zero source both
    return the zero pixel, not the destination ([DstIn] scales the
    destination by the source alpha, and [DstATop] keeps the source's alpha,
    which is 0). *)
Lemma dst_identity_counterexample :
  premul px_white /\
  Xfer DstIn (DupPMColor 0) px_white = px_zero /\
  Xfer DstIn (DupPMColor 0) px_white <> px_white /\
  Xfer DstATop (DupPMColor 0) px_white = px_zero /\
  Xfer DstATop (DupPMColor 0) px_white <> px_white.
Proof.
  unfold premul, px_white; cbn [chB chG chR chA].
  repeat split; try lia; try reflexivity; vm_compute; discriminate.
Qed.

(** C4 (amended). For Dst, DstOver, DstOut, Xor, SrcOver, Plus, Screen,
    Exclusion and Difference, a zero source pixel leaves every
    premultiplied destination as it is. *)
Theorem dst_identity_on_zero_source (M : ProcType) (d : Sk4px) :
  dst_identity M = true -> premul d -> Xfer M (DupPMColor 0) d = d.
Proof.
  intros HM Hd. rewrite DupPMColor_0. destruct d as [db dg dr da].
  open_premul Hd.
  destruct M; try discriminate HM; clear HM; to_lanes.
  - (* Dst *) reflexivity.
  - (* SrcOver *)
    rewrite lane_inv_0, !approx_255_r by lia.
    rewrite !lane_add8 by lia. reflexivity.
  - (* DstOut *)
    rewrite lane_inv_0, !approx_255_r by lia. reflexivity.
  - (* DstOver *)
    rewrite !lane_inv_byte by lia. rewrite !approx_zero_l by lia.
    rewrite !lane_add8 by lia. rewrite !Z.add_0_r. reflexivity.
  - (* Xor *)
    rewrite lane_inv_0. rewrite !lane_inv_byte by lia.
    rewrite !div255_sum2_lane by lia.
    rewrite !Z.mul_0_l, !Z.add_0_l, !(Z.mul_comm _ 255).
    rewrite !round_div255_mul255. reflexivity.
  - (* Plus *)
    unfold lane_saturatedAdd. rewrite !Z.add_0_l, !Z.min_r by lia.
    reflexivity.
  - (* Screen *)
    rewrite lane_inv_0, !approx_255_r by lia.
    rewrite !lane_add8 by lia. reflexivity.
  - (* Difference *)
    rewrite !Difference_m_lane by lia.
    rewrite !Z.mul_0_l, !Z.mul_0_r. rewrite !Z.min_id.
    change (round_div255 0) with 0.
    rewrite !lane_sub8 by lia. rewrite !lane_add8 by lia.
    rewrite !Z.sub_0_r. reflexivity.
  - (* Exclusion *)
    rewrite !approx_zero_l by lia.
    rewrite !lane_sub8 by lia. rewrite !lane_add8 by lia.
    rewrite !Z.sub_0_r. reflexivity.
Qed.

Lemma dst_identity_witness :
  dst_identity Xor = true /\ premul px_b /\
  Xfer Xor (DupPMColor 0) px_b = px_b.
Proof.
  split; [reflexivity|]. split; [exact px_b_premul|].
  exact (dst_identity_on_zero_source Xor px_b eq_refl px_b_premul).
Defined.

(** C5. With a coverage pixel whose four bytes are the same [alpha], the
    coverage-aware Plus is [saturatedAdd(d, approxMulDiv255(s, aa))]: every
    output byte is the destination byte plus the scaled source byte
    [(S*alpha + S) / 256], clamped to 255 after the scaling, and the scaled
    byte is within one of round(S*alpha/255). *)
Theorem xfer_aa_Plus_clamps_after_scaling (s d : Sk4px) (alpha : Z) :
  premul s -> premul d -> 0 <= alpha <= 255 ->
  xfer_aa Plus s d (DupAlpha alpha)
    = saturatedAdd d (approxMulDiv255 s (DupAlpha alpha)) /\
  forall c : chan,
    get c (xfer_aa Plus s d (DupAlpha alpha))
      = Z.min 255 (get c d + (get c s * alpha + get c s) / 256) /\
    round_div255 (get c s * alpha) - 1
      <= (get c s * alpha + get c s) / 256
      <= round_div255 (get c s * alpha) + 1.
Proof.
  intros Hs Hd Hal. split; [reflexivity|]. intros c.
  pose proof (premul_byte s c Hs) as Hsc.
  split.
  - destruct s as [sb sg sr sa], d as [db dg dr da], c;
      cbn [get chB chG chR chA] in Hsc; to_lanes;
      rewrite lane_approx_byte by assumption; reflexivity.
  - rewrite <- lane_approx_byte by assumption.
    apply approx_close; assumption.
Qed.

Lemma xfer_aa_Plus_witness :
  premul px_grey128 /\ premul px_grey200 /\ 0 <= 255 <= 255 /\
  (xfer_aa Plus px_grey128 px_grey200 (DupAlpha 255)
     = saturatedAdd px_grey200 (approxMulDiv255 px_grey128 (DupAlpha 255)) /\
   forall c : chan,
     get c (xfer_aa Plus px_grey128 px_grey200 (DupAlpha 255))
       = Z.min 255 (get c px_grey200
                    + (get c px_grey128 * 255 + get c px_grey128) / 256) /\
     round_div255 (get c px_grey128 * 255) - 1
       <= (get c px_grey128 * 255 + get c px_grey128) / 256
       <= round_div255 (get c px_grey128 * 255) + 1).
Proof.
  assert (premul px_grey128) as H1
    by (unfold premul, px_grey128; simpl; lia).
  assert (premul px_grey200) as H2
    by (unfold premul, px_grey200; simpl; lia).
  assert (0 <= 255 <= 255) as H3 by lia.
  split; [exact H1|]. split; [exact H2|]. split; [exact H3|].
  exact (xfer_aa_Plus_clamps_after_scaling px_grey128 px_grey200 255 H1 H2 H3).
Defined.

(** The scenario of the specification: [s = (128,128,128,128)],
    [d = (200,200,200,200)] under full coverage clamps to 255. *)
Example xfer_aa_Plus_scenario :
  xfer_aa Plus px_grey128 px_grey200 (DupAlpha 255) = px_white.
Proof. reflexivity. Qed.

(** Clamping before the scaling, as the generic wrapper would, gives a
    different pixel: for [s = (200,200,200,200)], [d = (100,100,100,100)]
    and coverage 128 the specialisation gives 200 and the generic wrapper
    178. *)
Example xfer_aa_Plus_is_not_generic :
  xfer_aa Plus px_grey200 (Vec 100 100 100 100) (DupAlpha 128)
    = Vec 200 200 200 200 /\
  xfer_aa_generic Plus px_grey200 (Vec 100 100 100 100) (DupAlpha 128)
    = Vec 178 178 178 178.
Proof. split; reflexivity. Qed.

(** C6. Coverage endpoints: for every mode, the coverage wrapper (the
    generic one, and the one specialised for Plus) returns the mode's result
    under full coverage and the destination under zero coverage. *)
Theorem coverage_endpoints (M : ProcType) (s d : Sk4px) :
  premul s -> premul d ->
  xfer_aa M s d (DupAlpha 255) = Xfer M s d /\
  xfer_aa M s d (DupAlpha 0) = d.
Proof.
  intros Hs Hd.
  assert (xfer_aa_generic M s d (DupAlpha 255) = Xfer M s d /\
          xfer_aa_generic M s d (DupAlpha 0) = d) as G
    by (split; [apply xfer_aa_generic_full | apply xfer_aa_generic_zero];
        assumption).
  destruct M; try exact G.
  unfold xfer_aa, xfer_aa_Plus, Xfer, Plus_Xfer. split.
  - rewrite approxMulDiv255_full by (apply premul_valid; assumption).
    apply saturatedAdd_comm.
  - rewrite approxMulDiv255_zero by (apply premul_valid; assumption).
    apply saturatedAdd_zero_r, premul_valid; assumption.
Qed.

Lemma coverage_endpoints_witness :
  premul px_a /\ premul px_b /\
  xfer_aa Multiply px_a px_b (DupAlpha 255) = Xfer Multiply px_a px_b /\
  xfer_aa Multiply px_a px_b (DupAlpha 0) = px_b.
Proof.
  split; [exact px_a_premul|]. split; [exact px_b_premul|].
  exact (coverage_endpoints Multiply px_a px_b px_a_premul px_b_premul).
Defined.

(** C7 (as stated) fails: which modes the factory recognises depends on the
    build.  With [SK_SUPPORT_LEGACY_XFERMODES] defined it returns [nullptr]
    for HardLight, Overlay, Darken and Lighten, and on 32-bit ARM without
    NEON it returns [nullptr] for every mode. *)
Lemma factory_counterexample :
  In kHardLight_Mode supported_modes /\
  SkCreate4pxXfermode legacy_build tt kHardLight_Mode = None /\
  SkCreate4pxXfermode legacy_build tt kOverlay_Mode = None /\
  SkCreate4pxXfermode legacy_build tt kDarken_Mode = None /\
  SkCreate4pxXfermode legacy_build tt kLighten_Mode = None /\
  In kSrcOver_Mode supported_modes /\
  SkCreate4pxXfermode arm32_build tt kSrcOver_Mode = None.
Proof.
  unfold supported_modes; cbn [In].
  repeat split; try reflexivity; tauto.
Qed.

(** C7 (amended). In a build that is not 32-bit ARM without NEON and does
    not define [SK_SUPPORT_LEGACY_XFERMODES], the factory recognises
    exactly the 22 listed modes: for each of them it returns the handler of
    the kernel with that mode, and for any other mode it returns [nullptr],
    so that the dispatcher reports "not handled" and the destination buffer
    is as it was. *)
Theorem factory_recognises_22_modes
    (ProcCoeff : Type) (cfg : BuildConfig) (rec : ProcCoeff) (mode : Mode) :
  negb (SK_CPU_ARM32 cfg) || SK_ARM_HAS_NEON cfg = true ->
  SK_SUPPORT_LEGACY_XFERMODES cfg = false ->
  (In mode supported_modes ->
   exists M : ProcType,
     SkCreate4pxXfermode cfg rec mode = Some (Create rec M) /\
     kMode M = mode) /\
  (~ In mode supported_modes ->
   SkCreate4pxXfermode cfg rec mode = None /\
   forall dst src n aa,
     dispatch cfg rec mode dst src n aa = (false, dst)).
Proof.
  intros Hgate Hlegacy. split.
  - intros H. apply supported_modes_kMode in H. destruct H as (M & <-).
    exists M. split; [|reflexivity].
    unfold SkCreate4pxXfermode. rewrite Hgate, Hlegacy.
    destruct M; reflexivity.
  - intros H. apply not_supported_is_other in H. destruct H as (tag & ->).
    assert (SkCreate4pxXfermode cfg rec (kOther_Mode tag) = None) as E
      by (unfold SkCreate4pxXfermode; rewrite Hgate; reflexivity).
    split; [exact E|]. intros; unfold dispatch; rewrite E; reflexivity.
Qed.

Lemma factory_recognises_22_modes_witness :
  negb (SK_CPU_ARM32 default_build) || SK_ARM_HAS_NEON default_build = true /\
  SK_SUPPORT_LEGACY_XFERMODES default_build = false /\
  In kPlus_Mode supported_modes /\
  ~ In (kOther_Mode 0) supported_modes /\
  (exists M : ProcType,
     SkCreate4pxXfermode default_build tt kPlus_Mode = Some (Create tt M) /\
     kMode M = kPlus_Mode) /\
  SkCreate4pxXfermode default_build tt (kOther_Mode 0) = None /\
  forall dst src n aa,
    dispatch default_build tt (kOther_Mode 0) dst src n aa = (false, dst).
Proof.
  assert (In kPlus_Mode supported_modes) as Hin
    by (unfold supported_modes; cbn [In]; tauto).
  assert (~ In (kOther_Mode 0) supported_modes) as Hout
    by (unfold supported_modes; cbn [In]; intuition discriminate).
  split; [reflexivity|]. split; [reflexivity|].
  split; [exact Hin|]. split; [exact Hout|]. split.
  - exact (proj1 (factory_recognises_22_modes unit default_build tt
                    kPlus_Mode eq_refl eq_refl) Hin).
  - exact (proj2 (factory_recognises_22_modes unit default_build tt
                    (kOther_Mode 0) eq_refl eq_refl) Hout).
Defined.

(** C8. The alpha of SrcATop is the destination's alpha, and the alpha of
    DstATop is the source's alpha, exactly. *)
Theorem ATop_alpha (s d : Sk4px) :
  premul s -> premul d ->
  chA (SrcATop_Xfer s d) = chA d /\ chA (DstATop_Xfer s d) = chA s.
Proof.
  intros Hs Hd. destruct s as [sb sg sr sa], d as [db dg dr da].
  open_premul Hs. open_premul Hd. to_lanes.
  rewrite !SrcATop_lane by lia.
  replace (sa * da + da * (255 - sa)) with (255 * da) by lia.
  replace (da * sa + sa * (255 - da)) with (255 * sa) by lia.
  rewrite !round_div255_mul255. split; reflexivity.
Qed.

Lemma ATop_alpha_witness :
  premul px_a /\ premul px_b /\
  chA (SrcATop_Xfer px_a px_b) = 128 /\ chA (DstATop_Xfer px_a px_b) = 200.
Proof.
  split; [exact px_a_premul|]. split; [exact px_b_premul|].
  exact (ATop_alpha px_a px_b px_a_premul px_b_premul).
Defined.

(** C9. An opaque source covers the destination: when the source alpha is
    255, SrcOver returns the source pixel. *)
Theorem SrcOver_opaque (s d : Sk4px) :
  premul s -> premul d -> chA s = 255 -> SrcOver_Xfer s d = s.
Proof.
  intros Hs Hd Ha. destruct s as [sb sg sr sa], d as [db dg dr da].
  cbn [chA] in Ha. subst sa. open_premul Hs. open_premul Hd. to_lanes.
  rewrite lane_inv_255. rewrite !approx_zero_r by lia.
  rewrite !lane_add8 by lia. rewrite !Z.add_0_r. reflexivity.
Qed.

Lemma SrcOver_opaque_witness :
  premul px_opaque /\ premul px_b /\ chA px_opaque = 255 /\
  SrcOver_Xfer px_opaque px_b = px_opaque.
Proof.
  assert (premul px_opaque) as H by (unfold premul, px_opaque; simpl; lia).
  split; [exact H|]. split; [exact px_b_premul|]. split; [reflexivity|].
  exact (SrcOver_opaque px_opaque px_b H px_b_premul eq_refl).
Defined.

(** C10. Plus is commutative on all pixels. *)
Theorem Plus_comm (s d : Sk4px) : Plus_Xfer s d = Plus_Xfer d s.
Proof. unfold Plus_Xfer. apply saturatedAdd_comm. Qed.

(* ================================================================== *)
(** * Further properties of the code                                    *)
(* ================================================================== *)

(* ------------------------------------------------------------------ *)
(** ** More lane lemmas                                                 *)
(* ------------------------------------------------------------------ *)

Lemma vec_ext w (x y : vec w) : (forall c, get c x = get c y) -> x = y.
Proof.
  destruct x as [x1 x2 x3 x4], y as [y1 y2 y3 y4]; intros H.
  pose proof (H cB); pose proof (H cG); pose proof (H cR); pose proof (H cA).
  cbn [get chB chG chR chA] in *. congruence.
Qed.

Lemma lane_approx_fits a b : fits W8 (lane_approxMulDiv255 a b).
Proof.
  unfold lane_approxMulDiv255, lane_add, wrap, fits; cbn [modulus].
  rewrite Z.shiftr_div_pow2 by lia. change (2 ^ 8) with 256.
  pose proof (Z.mod_pos_bound (lane_mulWiden a b + a) 65536 eq_refl).
  Z.div_mod_to_equations. lia.
Qed.

Lemma lane_saturatedAdd_fits a b :
  fits W8 a -> fits W8 b -> fits W8 (lane_saturatedAdd a b).
Proof. unfold fits, lane_saturatedAdd; cbn [modulus]; lia. Qed.

Lemma lane_saturatedAdd_0_l a : a <= 255 -> lane_saturatedAdd 0 a = a.
Proof. intros; unfold lane_saturatedAdd; lia. Qed.

Lemma lane_saturatedAdd_0_r a : a <= 255 -> lane_saturatedAdd a 0 = a.
Proof. intros; unfold lane_saturatedAdd; lia. Qed.

Lemma lane_add_0_r w a : fits w a -> lane_add w a 0 = a.
Proof.
  intros; unfold lane_add; rewrite Z.add_0_r; apply wrap_small; assumption.
Qed.

Lemma lane_add_0_l w a : fits w a -> lane_add w 0 a = a.
Proof.
  intros; unfold lane_add; rewrite Z.add_0_l; apply wrap_small; assumption.
Qed.

Lemma round_div255_mul255_r k : round_div255 (k * 255) = k.
Proof. rewrite Z.mul_comm. apply round_div255_mul255. Qed.

Lemma round_div255_0 : round_div255 0 = 0.
Proof. reflexivity. Qed.

(** [s + round(d*(255-sa)/255) = s + d - round(d*sa/255)]. *)
Lemma exact_over_lane s sa d :
  0 <= s <= sa -> sa <= 255 -> 0 <= d <= 255 ->
  s + round_div255 (d * (255 - sa)) = s + d - round_div255 (d * sa).
Proof.
  intros. replace (d * (255 - sa)) with (255 * d - d * sa) by lia.
  rewrite round_div255_compl. lia.
Qed.

(** The coverage interpolation [(bw * aa + d * aa.inv()).div255()] on one
    lane, and its bounds. *)
Lemma lerp_lane bw d al :
  0 <= bw <= 255 -> 0 <= d <= 255 -> 0 <= al <= 255 ->
  lane_div255 (lane_add W16 (lane_mulWiden bw al)
                            (lane_mulWiden d (lane_inv al)))
  = round_div255 (bw * al + d * (255 - al)).
Proof.
  intros. rewrite lane_inv_byte by lia.
  apply div255_sum2_lane; try lia. nia.
Qed.

Lemma lerp_between bw d al :
  0 <= bw <= 255 -> 0 <= d <= 255 -> 0 <= al <= 255 ->
  Z.min d bw <= round_div255 (bw * al + d * (255 - al)) <= Z.max d bw.
Proof.
  intros. split.
  - rewrite <- (round_div255_mul255 (Z.min d bw)).
    apply round_div255_mono. nia.
  - rewrite <- (round_div255_mul255 (Z.max d bw)).
    apply round_div255_mono. nia.
Qed.

Ltac fits_side := first [ apply wrap_fits | unfold fits; cbn [modulus]; lia ].

Ltac fits8 :=
  first [ assumption | apply wrap_fits | apply lane_approx_fits
        | apply lane_saturatedAdd_fits; assumption
        | unfold fits; cbn [modulus]; lia ].

(** One step of lane simplification when an operand is 0 or 255. *)
Ltac lane_step :=
  first
    [ rewrite lane_add_0_r by fits_side
    | rewrite lane_add_0_l by fits_side
    | rewrite lane_saturatedAdd_0_l by lia
    | rewrite lane_saturatedAdd_0_r by lia
    | rewrite lane_inv_0 | rewrite lane_inv_255
    | rewrite lane_inv_byte by lia
    | rewrite approx_zero_l by lia | rewrite approx_zero_r by lia
    | rewrite approx_255_r by lia | rewrite approx_255_l by lia
    | rewrite lane_mulWiden_byte by lia
    | rewrite Z.mul_0_l | rewrite Z.mul_0_r
    | rewrite Z.add_0_l | rewrite Z.add_0_r
    | rewrite Z.sub_0_r | rewrite Z.sub_diag | rewrite Z.min_id
    | rewrite Z.ltb_irrefl
    | rewrite lane_sub8 by lia | rewrite lane_add8 by lia
    | rewrite lane_add16 by lia | rewrite lane_sub16 by lia
    | rewrite lane_shl1 by lia
    | rewrite lane_div255_small by lia
    | rewrite round_div255_mul255 | rewrite round_div255_mul255_r
    | rewrite round_div255_0
    | rewrite lane_widenLoHi_lt
    | rewrite lane_thenElse_lt by fits_side ].

Ltac lane_simp := repeat lane_step.

Ltac split_ltb :=
  repeat match goal with
         | |- context [?a <? ?b] => destruct (a <? b)
         end.

Ltac open_narrow :=
  cbv [narrow_fits SrcOver_narrow_fits Screen_narrow_fits
       Difference_narrow_fits Exclusion_narrow_fits exact_over_narrow_fits
       HardLight_narrow_fits nadd_fits nsub_fits
       add sub mul inv alphas approxMulDiv255 div255 Min zeroAlphas
       vmap vmap2 get chB chG chR chA].

Ltac fits8n := unfold fits; cbn [modulus].

(* ------------------------------------------------------------------ *)
(** ** Closed forms of Darken, Lighten, Difference, Exclusion, HardLight *)
(* ------------------------------------------------------------------ *)

Lemma Darken_get s d c :
  premul s -> premul d ->
  get c (Xfer Darken s d)
  = get c s + get c d
    - Z.max (round_div255 (get c s * chA d)) (round_div255 (get c d * chA s)).
Proof.
  intros Hs Hd. destruct s as [sb sg sr sa], d as [db dg dr da].
  open_premul Hs. open_premul Hd.
  destruct c; to_lanes;
    try (rewrite select_over_lane by lia; rewrite !div255_mul_lane by lia;
         rewrite !exact_over_lane by lia;
         match goal with |- context [?a <? ?b] =>
           destruct (Z.ltb_spec a b) end; lia).
  rewrite exact_alpha_lane by lia.
  rewrite (Z.mul_comm da sa), Z.max_id. reflexivity.
Qed.

Lemma Lighten_get s d c :
  premul s -> premul d ->
  get c (Xfer Lighten s d)
  = get c s + get c d
    - Z.min (round_div255 (get c s * chA d)) (round_div255 (get c d * chA s)).
Proof.
  intros Hs Hd. destruct s as [sb sg sr sa], d as [db dg dr da].
  open_premul Hs. open_premul Hd.
  destruct c; to_lanes;
    try (rewrite select_over_lane by lia; rewrite !div255_mul_lane by lia;
         rewrite !exact_over_lane by lia;
         match goal with |- context [?a <? ?b] =>
           destruct (Z.ltb_spec a b) end; lia).
  rewrite exact_alpha_lane by lia.
  rewrite (Z.mul_comm da sa), Z.min_id. reflexivity.
Qed.

Lemma Difference_get s d c :
  premul s -> premul d ->
  get c (Xfer Difference s d)
  = get c s + get c d
    - (if is_alpha c then round_div255 (chA s * chA d)
       else 2 * round_div255 (Z.min (get c s * chA d) (get c d * chA s))).
Proof.
  intros Hs Hd. destruct s as [sb sg sr sa], d as [db dg dr da].
  open_premul Hs. open_premul Hd.
  destruct c; cbn [is_alpha]; to_lanes.
  - apply (Difference_lane sb sa db da); lia.
  - apply (Difference_lane sg sa dg da); lia.
  - apply (Difference_lane sr sa dr da); lia.
  - apply (Difference_alpha_lane sa da); lia.
Qed.

Lemma HardLight_get s d c :
  premul s -> premul d ->
  get c (Xfer HardLight s d)
  = round_div255
      (get c s * (255 - chA d) + get c d * (255 - chA s)
       + (if chA s - get c s <? get c s
          then chA s * chA d - 2 * ((chA d - get c d) * (chA s - get c s))
          else 2 * (get c s * get c d))).
Proof.
  intros Hs Hd. destruct s as [sb sg sr sa], d as [db dg dr da].
  open_premul Hs. open_premul Hd.
  destruct c; to_lanes.
  - apply (HardLight_lane sb sa db da); lia.
  - apply (HardLight_lane sg sa dg da); lia.
  - apply (HardLight_lane sr sa dr da); lia.
  - rewrite exact_alpha_lane by lia.
    rewrite Z.sub_diag, Z.mul_0_r, Z.mul_0_r, Z.sub_0_r.
    destruct (Z.ltb_spec 0 sa).
    + replace (sa * (255 - da) + da * (255 - sa) + sa * da)
        with (255 * (sa + da) - sa * da) by lia.
      symmetry; apply round_div255_compl.
    + assert (sa = 0) by lia; subst sa.
      rewrite !Z.mul_0_l, !Z.mul_0_r. rewrite Z.add_0_l, Z.add_0_r, Z.sub_0_r.
      change (round_div255 0) with 0. rewrite Z.sub_0_r, Z.add_0_l.
      rewrite Z.mul_comm. symmetry; apply round_div255_mul255.
Qed.

(* ------------------------------------------------------------------ *)
(** ** The coverage wrapper on premultiplied pixels                     *)
(* ------------------------------------------------------------------ *)

Lemma xfer_aa_generic_premul M s d al :
  premul s -> premul d -> 0 <= al <= 255 ->
  premul (xfer_aa_generic M s d (DupAlpha al)).
Proof.
  intros Hs Hd Hal. pose proof (Xfer_premul M s d Hs Hd) as Hbw.
  unfold xfer_aa_generic. generalize dependent (Xfer M s d). intros bw Hbw.
  revert bw d Hbw Hd.
  refine (premul_lanes
    (fun b ba d da =>
       lane_div255 (lane_add W16 (lane_mulWiden b al)
                                 (lane_mulWiden d (lane_inv al))))
    (fun ba da =>
       lane_div255 (lane_add W16 (lane_mulWiden ba al)
                                 (lane_mulWiden da (lane_inv al)))) _).
  intros b ba d da Hb Hba Hd Hda.
  rewrite !lerp_lane by lia.
  pose proof (lerp_between ba da al).
  pose proof (lerp_between b d al).
  assert (round_div255 (b * al + d * (255 - al))
          <= round_div255 (ba * al + da * (255 - al)))
    by (apply round_div255_mono; nia).
  lia.
Qed.

Lemma xfer_aa_Plus_premul s d al :
  premul s -> premul d -> 0 <= al <= 255 ->
  premul (xfer_aa_Plus s d (DupAlpha al)).
Proof.
  intros Hs Hd Hal. revert s d Hs Hd.
  refine (premul_lanes
    (fun s sa d da => lane_saturatedAdd d (lane_approxMulDiv255 s al))
    (fun sa da => lane_saturatedAdd da (lane_approxMulDiv255 sa al)) _).
  intros s sa d da Hs Hsa Hd Hda.
  pose proof (lane_approx_range s al).
  pose proof (lane_approx_range sa al).
  assert (lane_approxMulDiv255 s al <= lane_approxMulDiv255 sa al).
  { rewrite !lane_approx_byte by lia. apply Z.div_le_mono; nia. }
  unfold lane_saturatedAdd. lia.
Qed.

Lemma xfer_aa_premul M s d al :
  premul s -> premul d -> 0 <= al <= 255 ->
  premul (xfer_aa M s d (DupAlpha al)).
Proof.
  intros Hs Hd Hal.
  destruct M; cbn [xfer_aa];
    first [ apply xfer_aa_Plus_premul; assumption
          | apply xfer_aa_generic_premul; assumption ].
Qed.

Lemma xfer_aa_generic_between M s d al :
  premul s -> premul d -> 0 <= al <= 255 ->
  px_between d (Xfer M s d) (xfer_aa_generic M s d (DupAlpha al)).
Proof.
  intros Hs Hd Hal. pose proof (Xfer_premul M s d Hs Hd) as Hbw.
  unfold xfer_aa_generic. generalize dependent (Xfer M s d). intros bw Hbw.
  destruct bw as [b g r a], d as [db dg dr da].
  open_premul Hbw. open_premul Hd.
  intros c; destruct c; to_lanes; rewrite lerp_lane by lia;
    apply lerp_between; lia.
Qed.

Lemma xfer_aa_full M s d :
  premul s -> premul d -> xfer_aa M s d (DupAlpha 255) = Xfer M s d.
Proof.
  intros Hs Hd. destruct M; try (apply xfer_aa_generic_full; assumption).
  unfold xfer_aa, xfer_aa_Plus, Xfer, Plus_Xfer.
  rewrite approxMulDiv255_full by (apply premul_valid; assumption).
  apply saturatedAdd_comm.
Qed.

Lemma xfer_aa_none M s d :
  premul s -> premul d -> xfer_aa M s d (DupAlpha 0) = d.
Proof.
  intros Hs Hd. destruct M; try (apply xfer_aa_generic_zero; assumption).
  unfold xfer_aa, xfer_aa_Plus.
  rewrite approxMulDiv255_zero by (apply premul_valid; assumption).
  apply saturatedAdd_zero_r, premul_valid; assumption.
Qed.

(* ------------------------------------------------------------------ *)
(** ** 8-bit lanes that compute without wrap-around                     *)
(* ------------------------------------------------------------------ *)

Lemma SrcOver_narrow_lane s sa d :
  0 <= s <= sa -> sa <= 255 -> 0 <= d <= 255 ->
  fits W8 (s + lane_approxMulDiv255 d (lane_inv sa)).
Proof.
  intros. rewrite lane_inv_byte by lia. rewrite lane_approx_byte by lia.
  fits8n. zdiv.
Qed.

Lemma exact_over_narrow_lane s sa d :
  0 <= s <= sa -> sa <= 255 -> 0 <= d <= 255 ->
  fits W8 (s + lane_div255 (lane_mulWiden d (lane_inv sa))).
Proof.
  intros. rewrite lane_inv_byte by lia. rewrite div255_mul_lane by lia.
  assert (0 <= round_div255 (d * (255 - sa)) <= 255 - sa)
    by (apply round_div255_bounds; nia).
  fits8n. lia.
Qed.

Lemma Difference_narrow_lane s sa d da :
  0 <= s <= sa -> sa <= 255 -> 0 <= d <= da -> da <= 255 ->
  let m := lane_div255 (Z.min (lane_mulWiden s da) (lane_mulWiden d sa)) in
  fits W8 (s - m) /\ fits W8 (d - m) /\
  fits W8 (lane_sub W8 s m + lane_sub W8 d m).
Proof.
  intros Hs Hsa Hd Hda m. subst m. rewrite Difference_m_lane by lia.
  assert (0 <= round_div255 (Z.min (s * da) (d * sa)) <= s)
    by (apply round_div255_bounds; nia).
  assert (0 <= round_div255 (Z.min (s * da) (d * sa)) <= d)
    by (apply round_div255_bounds; nia).
  rewrite !lane_sub8 by lia. fits8n.
  repeat split; try lia.
  destruct (Z.min_spec (s * da) (d * sa)) as [[? E]|[? E]]; rewrite E; zdiv.
Qed.

Lemma Difference_narrow_alpha_lane sa da :
  0 <= sa <= 255 -> 0 <= da <= 255 ->
  let m := lane_div255 (Z.min (lane_mulWiden sa da) (lane_mulWiden da sa)) in
  fits W8 (sa - m) /\ fits W8 (da - 0) /\
  fits W8 (lane_sub W8 sa m + lane_sub W8 da 0).
Proof.
  intros Hsa Hda m. subst m. rewrite Difference_m_lane by lia.
  rewrite (Z.mul_comm da sa), Z.min_id.
  assert (0 <= round_div255 (sa * da) <= sa)
    by (apply round_div255_bounds; nia).
  pose proof (exact_srcover_alpha_le sa da Hsa Hda).
  rewrite !lane_sub8 by lia. fits8n. lia.
Qed.

Lemma Exclusion_narrow_lane s d :
  0 <= s <= 255 -> 0 <= d <= 255 ->
  let p := lane_approxMulDiv255 s d in
  fits W8 (s - p) /\ fits W8 (d - p) /\
  fits W8 (lane_sub W8 s p + lane_sub W8 d p).
Proof.
  intros Hs Hd p. subst p. rewrite lane_approx_byte by lia.
  assert (0 <= (s * d + s) / 256 <= s) by zdiv.
  assert ((s * d + s) / 256 <= d) by zdiv.
  rewrite !lane_sub8 by lia. fits8n. repeat split; try lia. zdiv.
Qed.

Lemma Exclusion_narrow_alpha_lane sa da :
  0 <= sa <= 255 -> 0 <= da <= 255 ->
  let p := lane_approxMulDiv255 sa da in
  fits W8 (sa - p) /\ fits W8 (da - 0) /\
  fits W8 (lane_sub W8 sa p + lane_sub W8 da 0).
Proof.
  intros Hs Hd p. subst p. rewrite lane_approx_byte by lia.
  assert (0 <= (sa * da + sa) / 256 <= sa) by zdiv.
  rewrite !lane_sub8 by lia. fits8n. repeat split; try lia. zdiv.
Qed.

(* ------------------------------------------------------------------ *)
(** ** Properties of the kernels                                        *)
(* ------------------------------------------------------------------ *)

Lemma px_white_premul : premul px_white.
Proof. unfold premul, px_white; simpl; lia. Defined.

Lemma px_opaque_premul : premul px_opaque.
Proof. unfold premul, px_opaque; simpl; lia. Defined.

Lemma px_bad1_valid : valid px_bad1.
Proof. unfold valid, fits, px_bad1; simpl; lia. Defined.

Lemma px_bad2_valid : valid px_bad2.
Proof. unfold valid, fits, px_bad2; simpl; lia. Defined.



(** X2. The coverage wrapper preserves premultiplication: for every mode,
    premultiplied source and destination and any coverage byte, the result
    of [xfer_aa] is premultiplied. *)
Theorem coverage_keeps_premul (M : ProcType) (s d : Sk4px) (al : Z) :
  premul s -> premul d -> 0 <= al <= 255 ->
  premul (xfer_aa M s d (DupAlpha al)).
Proof. apply xfer_aa_premul. Qed.

Lemma coverage_keeps_premul_inst :
  premul px_a /\ premul px_b /\ 0 <= 77 <= 255 /\
  premul (xfer_aa Screen px_a px_b (DupAlpha 77)).
Proof.
  assert (0 <= 77 <= 255) as H by lia.
  split; [exact px_a_premul|]. split; [exact px_b_premul|].
  split; [exact H|].
  exact (coverage_keeps_premul Screen px_a px_b 77 px_a_premul px_b_premul H).
Defined.

(** X3. Coverage interpolates: for every mode and coverage byte, each
    channel of [xfer_aa] lies between the destination's channel and the
    channel of the mode's result; the wrapper never overshoots either. *)
Theorem coverage_interpolates (M : ProcType) (s d : Sk4px) (al : Z) :
  premul s -> premul d -> 0 <= al <= 255 ->
  px_between d (Xfer M s d) (xfer_aa M s d (DupAlpha al)).
Proof.
  intros Hs Hd Hal.
  destruct M; cbn [xfer_aa];
    try (apply xfer_aa_generic_between; assumption).
  destruct s as [sb sg sr sa], d as [db dg dr da].
  open_premul Hs. open_premul Hd.
  intros c; destruct c; to_lanes; unfold lane_saturatedAdd;
    match goal with
    | |- context [lane_approxMulDiv255 ?x al] =>
        pose proof (lane_approx_range x al)
    end; lia.
Qed.

Lemma coverage_interpolates_inst :
  premul px_a /\ premul px_b /\ 0 <= 77 <= 255 /\
  px_between px_b (Xfer Plus px_a px_b) (xfer_aa Plus px_a px_b (DupAlpha 77)).
Proof.
  assert (0 <= 77 <= 255) as H by lia.
  split; [exact px_a_premul|]. split; [exact px_b_premul|].
  split; [exact H|].
  exact (coverage_interpolates Plus px_a px_b 77 px_a_premul px_b_premul H).
Defined.

(** X4. With the zero pixel as source every mode returns either the
    destination or the zero pixel: the destination for Dst, SrcOver,
    DstOver, DstOut, SrcATop, Xor, Plus, Screen, Multiply, Difference,
    Exclusion, HardLight, Overlay, Darken and Lighten, the zero pixel for
    Clear, Src, SrcIn, DstIn, SrcOut, DstATop and Modulate. *)
Theorem zero_source_table (M : ProcType) (d : Sk4px) :
  premul d ->
  Xfer M px_zero d = if keeps_dst_on_zero_src M then d else px_zero.
Proof.
  intros Hd. destruct d as [db dg dr da]. open_premul Hd. unfold px_zero.
  destruct M; cbn [keeps_dst_on_zero_src Xfer]; unfold Clear_Xfer;
    rewrite ?DupPMColor_0; to_lanes; lane_simp; split_ltb; lane_simp;
    reflexivity.
Qed.

Lemma zero_source_table_inst :
  premul px_b /\
  Xfer SrcATop px_zero px_b = px_b /\ Xfer DstATop px_zero px_b = px_zero.
Proof.
  split; [exact px_b_premul|]. split.
  - exact (zero_source_table SrcATop px_b px_b_premul).
  - exact (zero_source_table DstATop px_b px_b_premul).
Defined.

(** X5. With the zero pixel as destination every mode returns either the
    source or the zero pixel: the source for Src, SrcOver, DstOver, SrcOut,
    DstATop, Xor, Plus, Screen, Multiply, Difference, Exclusion, HardLight,
    Overlay, Darken and Lighten, the zero pixel for Clear, Dst, SrcIn,
    DstIn, DstOut, SrcATop and Modulate. *)
Theorem zero_destination_table (M : ProcType) (s : Sk4px) :
  premul s ->
  Xfer M s px_zero = if keeps_src_on_zero_dst M then s else px_zero.
Proof.
  intros Hs. destruct s as [sb sg sr sa]. open_premul Hs. unfold px_zero.
  destruct M; cbn [keeps_src_on_zero_dst Xfer]; unfold Clear_Xfer;
    rewrite ?DupPMColor_0; to_lanes; lane_simp; split_ltb; lane_simp;
    reflexivity.
Qed.

Lemma zero_destination_table_inst :
  premul px_a /\
  Xfer HardLight px_a px_zero = px_a /\ Xfer DstOut px_a px_zero = px_zero.
Proof.
  split; [exact px_a_premul|]. split.
  - exact (zero_destination_table HardLight px_a px_a_premul).
  - exact (zero_destination_table DstOut px_a px_a_premul).
Defined.

(** X6. Xor, Multiply, Difference, Darken and Lighten are symmetric: on
    premultiplied pixels swapping source and destination does not change
    the result. *)
Theorem symmetric_kernels (M : ProcType) (s d : Sk4px) :
  commutes M = true -> premul s -> premul d -> Xfer M s d = Xfer M d s.
Proof.
  intros HM Hs Hd. destruct M; try discriminate HM; clear HM.
  - destruct s as [sb sg sr sa], d as [db dg dr da].
    open_premul Hs. open_premul Hd. to_lanes.
    rewrite !Xor_lane by lia.
    f_equal; f_equal; lia.
  - destruct s as [sb sg sr sa], d as [db dg dr da].
    open_premul Hs. open_premul Hd. to_lanes.
    rewrite !Multiply_lane by lia.
    f_equal; f_equal; lia.
  - apply vec_ext; intros c. rewrite !Difference_get by assumption.
    rewrite (Z.mul_comm (chA d) (chA s)).
    rewrite (Z.min_comm (get c d * chA s)). lia.
  - apply vec_ext; intros c. rewrite !Darken_get by assumption. lia.
  - apply vec_ext; intros c. rewrite !Lighten_get by assumption. lia.
Qed.

Lemma symmetric_kernels_inst :
  commutes Darken = true /\ premul px_a /\ premul px_b /\
  Xfer Darken px_a px_b = Xfer Darken px_b px_a.
Proof.
  split; [reflexivity|]. split; [exact px_a_premul|].
  split; [exact px_b_premul|].
  exact (symmetric_kernels Darken px_a px_b eq_refl px_a_premul px_b_premul).
Defined.

(** X7. Darken and Lighten compute, on every channel,
    [s + d - max(round(s*da/255), round(d*sa/255))] and
    [s + d - min(round(s*da/255), round(d*sa/255))]: the mask selects the
    smaller, respectively the larger, of the two source-over sums. *)
Theorem Darken_Lighten_formula (s d : Sk4px) (c : chan) :
  premul s -> premul d ->
  get c (Xfer Darken s d)
  = get c s + get c d
    - Z.max (round_div255 (get c s * chA d)) (round_div255 (get c d * chA s))
  /\
  get c (Xfer Lighten s d)
  = get c s + get c d
    - Z.min (round_div255 (get c s * chA d)) (round_div255 (get c d * chA s)).
Proof.
  intros Hs Hd. split; [apply Darken_get | apply Lighten_get]; assumption.
Qed.

Lemma Darken_Lighten_formula_inst :
  premul px_a /\ premul px_b /\
  get cG (Xfer Darken px_a px_b)
  = get cG px_a + get cG px_b
    - Z.max (round_div255 (get cG px_a * chA px_b))
            (round_div255 (get cG px_b * chA px_a)) /\
  get cG (Xfer Lighten px_a px_b)
  = get cG px_a + get cG px_b
    - Z.min (round_div255 (get cG px_a * chA px_b))
            (round_div255 (get cG px_b * chA px_a)).
Proof.
  split; [exact px_a_premul|]. split; [exact px_b_premul|].
  exact (Darken_Lighten_formula px_a px_b cG px_a_premul px_b_premul).
Defined.

(** X8. Darken is below Lighten: on premultiplied pixels every channel of
    Darken is at most the channel of Lighten, and their alphas are equal. *)
Theorem Darken_below_Lighten (s d : Sk4px) :
  premul s -> premul d ->
  px_le (Xfer Darken s d) (Xfer Lighten s d) /\
  chA (Xfer Darken s d) = chA (Xfer Lighten s d).
Proof.
  intros Hs Hd. split.
  - intros c. rewrite Darken_get, Lighten_get by assumption. lia.
  - change (chA (Xfer Darken s d)) with (get cA (Xfer Darken s d)).
    change (chA (Xfer Lighten s d)) with (get cA (Xfer Lighten s d)).
    rewrite Darken_get, Lighten_get by assumption.
    cbn [get]. rewrite (Z.mul_comm (chA d) (chA s)), Z.max_id, Z.min_id.
    reflexivity.
Qed.

Lemma Darken_below_Lighten_inst :
  premul px_a /\ premul px_b /\
  px_le (Xfer Darken px_a px_b) (Xfer Lighten px_a px_b) /\
  chA (Xfer Darken px_a px_b) = chA (Xfer Lighten px_a px_b).
Proof.
  split; [exact px_a_premul|]. split; [exact px_b_premul|].
  exact (Darken_below_Lighten px_a px_b px_a_premul px_b_premul).
Defined.

(** X9. Difference computes what its comment says,
    [Sa + Da - Sa*Da, Sc + Dc - 2*min(Sc*Da, Dc*Sa)], with exact rounding:
    the alpha is [sa + da - round(sa*da/255)] and each colour channel is
    [s + d - 2*round(min(s*da, d*sa)/255)]. *)
Theorem Difference_formula (s d : Sk4px) (c : chan) :
  premul s -> premul d ->
  get c (Xfer Difference s d)
  = get c s + get c d
    - (if is_alpha c then round_div255 (chA s * chA d)
       else 2 * round_div255 (Z.min (get c s * chA d) (get c d * chA s))).
Proof. apply Difference_get. Qed.

Lemma Difference_formula_inst :
  premul px_a /\ premul px_b /\
  get cR (Xfer Difference px_a px_b)
  = get cR px_a + get cR px_b
    - 2 * round_div255 (Z.min (get cR px_a * chA px_b)
                              (get cR px_b * chA px_a)).
Proof.
  split; [exact px_a_premul|]. split; [exact px_b_premul|].
  exact (Difference_formula px_a px_b cR px_a_premul px_b_premul).
Defined.

(** X10. Exclusion computes what its comment says,
    [Sa + Da - Sa*Da, Sc + Dc - 2*Sc*Dc], with the product taken through
    [approxMulDiv255]: with [p = (s*d + s) / 256] on a channel, the alpha
    is [sa + da - p] and a colour channel is [s + d - 2*p]. *)
Theorem Exclusion_formula (s d : Sk4px) (c : chan) :
  valid s -> valid d ->
  get c (Xfer Exclusion s d)
  = get c s + get c d
    - (if is_alpha c then 1 else 2)
      * ((get c s * get c d + get c s) / 256).
Proof.
  destruct s as [sb sg sr sa], d as [db dg dr da].
  unfold valid, fits; cbn [chB chG chR chA modulus].
  intros (Hb & Hg & Hr & Ha) (Hb' & Hg' & Hr' & Ha').
  destruct c; cbn [is_alpha]; to_lanes.
  - apply (Exclusion_lane sb db); lia.
  - apply (Exclusion_lane sg dg); lia.
  - apply (Exclusion_lane sr dr); lia.
  - rewrite (Exclusion_alpha_lane sa da) by lia. lia.
Qed.

Lemma Exclusion_formula_inst :
  valid px_a /\ valid px_b /\
  get cR (Xfer Exclusion px_a px_b)
  = get cR px_a + get cR px_b
    - 2 * ((get cR px_a * get cR px_b + get cR px_a) / 256).
Proof.
  pose proof (premul_valid px_a px_a_premul) as Ha.
  pose proof (premul_valid px_b px_b_premul) as Hb.
  split; [exact Ha|]. split; [exact Hb|].
  exact (Exclusion_formula px_a px_b cR Ha Hb).
Defined.

(** X11. HardLight computes on every channel the exact rounded value
    [round((s*(255-da) + d*(255-sa) + x)/255)] with
    [x = sa*da - 2*(da-d)*(sa-s)] where [sa - s < s] and [x = 2*s*d]
    elsewhere; what the discarded branch holds on a lane, wrapped or not,
    never reaches the result.  Overlay is the same with source and
    destination exchanged. *)
Theorem HardLight_formula (s d : Sk4px) (c : chan) :
  premul s -> premul d ->
  get c (Xfer HardLight s d)
  = round_div255
      (get c s * (255 - chA d) + get c d * (255 - chA s)
       + (if chA s - get c s <? get c s
          then chA s * chA d - 2 * ((chA d - get c d) * (chA s - get c s))
          else 2 * (get c s * get c d)))
  /\
  get c (Xfer Overlay s d)
  = round_div255
      (get c d * (255 - chA s) + get c s * (255 - chA d)
       + (if chA d - get c d <? get c d
          then chA d * chA s - 2 * ((chA s - get c s) * (chA d - get c d))
          else 2 * (get c d * get c s))).
Proof.
  intros Hs Hd. split.
  - apply HardLight_get; assumption.
  - apply (HardLight_get d s c); assumption.
Qed.

Lemma HardLight_formula_inst :
  premul px_black /\ premul px_white /\
  get cB (Xfer HardLight px_black px_white) = 0 /\
  get cB (Xfer Overlay px_black px_white) = 255.
Proof.
  assert (premul px_black) as H1 by (unfold premul, px_black; simpl; lia).
  split; [exact H1|]. split; [exact px_white_premul|].
  exact (HardLight_formula px_black px_white cB H1 px_white_premul).
Defined.

(** X12. The 8-bit sums and differences of the kernels never wrap on
    premultiplied pixels: [s + d.approxMulDiv255(...)] of SrcOver, DstOver
    and Screen, [(s - m) + (d - m.zeroAlphas())] of Difference and
    Exclusion ("no chance of underflow ... no overflow"), the exact
    source-over sums of HardLight, Overlay, Darken and Lighten, and
    [sa - s], [da - d] of HardLight and Overlay. *)
Theorem narrow_lanes_do_not_wrap (M : ProcType) (c : chan) (s d : Sk4px) :
  premul s -> premul d -> narrow_fits M c s d.
Proof.
  intros Hs Hd. destruct s as [sb sg sr sa], d as [db dg dr da].
  open_premul Hs. open_premul Hd.
  destruct M; try exact I; open_narrow.
  - destruct c; apply SrcOver_narrow_lane; lia.
  - destruct c; apply SrcOver_narrow_lane; lia.
  - destruct c; apply SrcOver_narrow_lane; lia.
  - destruct c;
      first [ apply (Difference_narrow_lane _ sa _ da); lia
            | apply Difference_narrow_alpha_lane; lia ].
  - destruct c;
      first [ apply Exclusion_narrow_lane; lia
            | apply Exclusion_narrow_alpha_lane; lia ].
  - destruct c;
      (split; [apply exact_over_narrow_lane; lia | fits8n; lia]).
  - destruct c;
      (split; [apply exact_over_narrow_lane; lia | fits8n; lia]).
  - destruct c; (split; apply exact_over_narrow_lane; lia).
  - destruct c; (split; apply exact_over_narrow_lane; lia).
Qed.

Lemma narrow_lanes_do_not_wrap_inst :
  premul px_a /\ premul px_b /\ narrow_fits Difference cG px_a px_b.
Proof.
  split; [exact px_a_premul|]. split; [exact px_b_premul|].
  exact (narrow_lanes_do_not_wrap Difference cG px_a px_b
           px_a_premul px_b_premul).
Defined.

(** X13. Modulate never brightens and Screen never darkens: for pixels of
    bytes, every channel of Modulate is at most the channel of the source
    and of the destination, and every channel of Screen is at least
    both. *)
Theorem Modulate_darkens_Screen_lightens (s d : Sk4px) :
  valid s -> valid d ->
  px_le (Xfer Modulate s d) s /\ px_le (Xfer Modulate s d) d /\
  px_le s (Xfer Screen s d) /\ px_le d (Xfer Screen s d).
Proof.
  destruct s as [sb sg sr sa], d as [db dg dr da].
  unfold valid, fits; cbn [chB chG chR chA modulus].
  intros (Hb & Hg & Hr & Ha) (Hb' & Hg' & Hr' & Ha').
  repeat split; intros c; destruct c; to_lanes;
    rewrite ?Screen_lane by lia; rewrite ?lane_approx_byte by lia; zdiv.
Qed.

Lemma Modulate_darkens_Screen_lightens_inst :
  valid px_bad1 /\ valid px_bad2 /\
  px_le (Xfer Modulate px_bad1 px_bad2) px_bad1 /\
  px_le (Xfer Modulate px_bad1 px_bad2) px_bad2 /\
  px_le px_bad1 (Xfer Screen px_bad1 px_bad2) /\
  px_le px_bad2 (Xfer Screen px_bad1 px_bad2).
Proof.
  split; [exact px_bad1_valid|]. split; [exact px_bad2_valid|].
  exact (Modulate_darkens_Screen_lightens px_bad1 px_bad2
           px_bad1_valid px_bad2_valid).
Defined.

(** X14. SrcOver, DstOver, Plus, Screen, Multiply, Difference, Exclusion,
    HardLight, Overlay, Darken and Lighten never reduce alpha: the alpha of
    the result is at least the source's and the destination's alpha. *)
Theorem alpha_is_not_reduced (M : ProcType) (s d : Sk4px) :
  alpha_never_reduced M = true -> premul s -> premul d ->
  Z.max (chA s) (chA d) <= chA (Xfer M s d).
Proof.
  intros HM Hs Hd. destruct s as [sb sg sr sa], d as [db dg dr da].
  open_premul Hs. open_premul Hd. cbn [chA].
  assert (0 <= round_div255 (sa * da) <= sa)
    by (apply round_div255_bounds; nia).
  assert (0 <= round_div255 (sa * da) <= da)
    by (apply round_div255_bounds; nia).
  assert (round_div255 (da * sa) = round_div255 (sa * da)) as Ec
    by (f_equal; lia).
  destruct M; try discriminate HM; clear HM; to_lanes.
  - rewrite srcover_lane by lia. zdiv.
  - rewrite srcover_lane by lia. zdiv.
  - unfold lane_saturatedAdd. lia.
  - rewrite Screen_lane by lia. zdiv.
  - rewrite (Multiply_lane sa sa da da) by lia.
    replace (sa * (255 - da) + da * (255 - sa) + sa * da)
      with (255 * (sa + da) - sa * da) by lia.
    rewrite round_div255_compl. lia.
  - rewrite (Difference_alpha_lane sa da) by lia. lia.
  - rewrite (Exclusion_alpha_lane sa da) by lia. zdiv.
  - rewrite exact_alpha_lane by lia. lia.
  - rewrite exact_alpha_lane by lia. lia.
  - rewrite exact_alpha_lane by lia. lia.
  - rewrite exact_alpha_lane by lia. lia.
Qed.

Lemma alpha_is_not_reduced_inst :
  alpha_never_reduced Exclusion = true /\ premul px_a /\ premul px_b /\
  Z.max (chA px_a) (chA px_b) <= chA (Xfer Exclusion px_a px_b).
Proof.
  split; [reflexivity|]. split; [exact px_a_premul|].
  split; [exact px_b_premul|].
  exact (alpha_is_not_reduced Exclusion px_a px_b eq_refl
           px_a_premul px_b_premul).
Defined.

(** X15. On opaque pixels Darken is the channel-wise minimum, Lighten the
    channel-wise maximum, and Difference the absolute difference of the
    colour channels with alpha 255. *)
Theorem opaque_min_max_absdiff (s d : Sk4px) :
  premul s -> premul d -> chA s = 255 -> chA d = 255 ->
  Xfer Darken s d = px_min s d /\
  Xfer Lighten s d = px_max s d /\
  Xfer Difference s d
  = Vec (Z.abs (chB s - chB d)) (Z.abs (chG s - chG d))
        (Z.abs (chR s - chR d)) 255.
Proof.
  intros Hs Hd Hsa Hda.
  pose proof (Darken_get s d) as HD.
  pose proof (Lighten_get s d) as HL.
  pose proof (Difference_get s d) as HF.
  destruct s as [sb sg sr sa], d as [db dg dr da].
  cbn [chA] in Hsa, Hda. subst sa da.
  assert (0 <= sb <= 255 /\ 0 <= sg <= 255 /\ 0 <= sr <= 255) as Bs
    by (unfold premul in Hs; cbn [chB chG chR chA] in Hs; lia).
  assert (0 <= db <= 255 /\ 0 <= dg <= 255 /\ 0 <= dr <= 255) as Bd
    by (unfold premul in Hd; cbn [chB chG chR chA] in Hd; lia).
  repeat split; apply vec_ext; intros c.
  - rewrite HD by assumption.
    cbn [chA]. rewrite !round_div255_mul255_r.
    destruct c; unfold px_min, vmap2; cbn [get chB chG chR chA]; lia.
  - rewrite HL by assumption.
    cbn [chA]. rewrite !round_div255_mul255_r.
    destruct c; unfold px_max, vmap2; cbn [get chB chG chR chA]; lia.
  - rewrite HF by assumption. cbn [chA].
    rewrite Z.mul_min_distr_nonneg_r by lia.
    rewrite !round_div255_mul255_r.
    destruct c; cbn [is_alpha get chB chG chR chA]; lia.
Qed.

Lemma opaque_min_max_absdiff_inst :
  premul px_opaque /\ premul px_white /\
  chA px_opaque = 255 /\ chA px_white = 255 /\
  Xfer Darken px_opaque px_white = px_opaque /\
  Xfer Lighten px_opaque px_white = px_white /\
  Xfer Difference px_opaque px_white = Vec 255 255 0 255.
Proof.
  split; [exact px_opaque_premul|]. split; [exact px_white_premul|].
  split; [reflexivity|]. split; [reflexivity|].
  exact (opaque_min_max_absdiff px_opaque px_white
           px_opaque_premul px_white_premul eq_refl eq_refl).
Defined.

(** X16. Against an opaque destination SrcIn returns the source and SrcOut
    the zero pixel; with an opaque source DstIn returns the destination and
    DstOut the zero pixel. *)
Theorem opaque_In_and_Out (s d : Sk4px) :
  premul s -> premul d ->
  (chA d = 255 -> Xfer SrcIn s d = s /\ Xfer SrcOut s d = px_zero) /\
  (chA s = 255 -> Xfer DstIn s d = d /\ Xfer DstOut s d = px_zero).
Proof.
  intros Hs Hd. destruct s as [sb sg sr sa], d as [db dg dr da].
  open_premul Hs. open_premul Hd. cbn [chA]. unfold px_zero.
  split; intros ->; split; to_lanes; lane_simp; reflexivity.
Qed.

Lemma opaque_In_and_Out_inst :
  premul px_a /\ premul px_white /\ chA px_white = 255 /\
  (Xfer SrcIn px_a px_white = px_a /\ Xfer SrcOut px_a px_white = px_zero) /\
  (Xfer DstIn px_white px_a = px_a /\ Xfer DstOut px_white px_a = px_zero).
Proof.
  split; [exact px_a_premul|]. split; [exact px_white_premul|].
  split; [reflexivity|]. split.
  - exact (proj1 (opaque_In_and_Out px_a px_white
                    px_a_premul px_white_premul) eq_refl).
  - exact (proj2 (opaque_In_and_Out px_white px_a
                    px_white_premul px_a_premul) eq_refl).
Defined.

(* ------------------------------------------------------------------ *)
(** ** Properties of [xfer32] and of the factory                        *)
(* ------------------------------------------------------------------ *)

(** X17. [xfer32] keeps a buffer premultiplied: when the destination and
    source buffers hold premultiplied pixels and the coverage buffer, if
    there is one, holds bytes, every pixel of the destination after the
    call is premultiplied, in both branches of the call. *)
Theorem xfer32_keeps_premul (ProcCoeff : Type)
    (x : SkT4pxXfermode ProcCoeff) (dst src : list Sk4px) (n : nat)
    (aa : option (list Z)) :
  Forall premul dst -> Forall premul src -> coverage_ok aa ->
  Forall premul (xfer32 x dst src n aa).
Proof.
  intros Hdst Hsrc Haa. destruct aa as [l|]; unfold xfer32.
  - cbn [coverage_ok] in Haa. revert dst src l Hdst Hsrc Haa.
    induction n as [|n IH]; intros dst src l Hdst Hsrc Haa;
      [destruct dst; assumption|].
    destruct dst as [|d dst]; [constructor|].
    destruct src as [|s src]; [assumption|].
    destruct l as [|a l]; [assumption|].
    inversion Hdst; inversion Hsrc; inversion Haa; subst.
    cbn [MapDstSrcAlpha]. constructor.
    + apply xfer_aa_premul; assumption.
    + apply IH; assumption.
  - revert dst src Hdst Hsrc.
    induction n as [|n IH]; intros dst src Hdst Hsrc;
      [destruct dst; assumption|].
    destruct dst as [|d dst]; [constructor|].
    destruct src as [|s src]; [assumption|].
    inversion Hdst; inversion Hsrc; subst.
    cbn [MapDstSrc]. constructor.
    + apply Xfer_premul; assumption.
    + apply IH; assumption.
Qed.

Lemma xfer32_keeps_premul_inst :
  Forall premul [px_a; px_b] /\ Forall premul [px_b; px_a] /\
  coverage_ok (Some [12; 200]) /\
  Forall premul
    (xfer32 (Create tt Overlay) [px_a; px_b] [px_b; px_a] 2
            (Some [12; 200])).
Proof.
  assert (Forall premul [px_a; px_b]) as H1
    by exact (Forall_cons _ px_a_premul
                (Forall_cons _ px_b_premul (Forall_nil _))).
  assert (Forall premul [px_b; px_a]) as H2
    by exact (Forall_cons _ px_b_premul
                (Forall_cons _ px_a_premul (Forall_nil _))).
  assert (coverage_ok (Some [12; 200])) as H3
    by (cbn [coverage_ok]; repeat constructor; lia).
  split; [exact H1|]. split; [exact H2|]. split; [exact H3|].
  exact (xfer32_keeps_premul unit (Create tt Overlay) [px_a; px_b]
           [px_b; px_a] 2 (Some [12; 200]) H1 H2 H3).
Defined.

(** X18. For [xfer32] a null coverage pointer means full coverage: on
    premultiplied buffers a coverage buffer of [n] bytes 255 gives the same
    destination as no coverage buffer, and a coverage buffer of [n] bytes 0
    leaves the destination as it was. *)
Theorem xfer32_null_is_full_coverage (ProcCoeff : Type)
    (x : SkT4pxXfermode ProcCoeff) (dst src : list Sk4px) (n : nat) :
  Forall premul dst -> Forall premul src ->
  xfer32 x dst src n (Some (repeat 255 n)) = xfer32 x dst src n None /\
  xfer32 x dst src n (Some (repeat 0 n)) = dst.
Proof.
  intros Hdst Hsrc. unfold xfer32. revert dst src Hdst Hsrc.
  induction n as [|n IH]; intros dst src Hdst Hsrc;
    [destruct dst; split; reflexivity|].
  destruct dst as [|d dst]; [split; reflexivity|].
  destruct src as [|s src]; [split; reflexivity|].
  inversion Hdst; inversion Hsrc; subst.
  destruct (IH dst src) as (IH1 & IH2); try assumption.
  cbn [MapDstSrc MapDstSrcAlpha repeat]. split; f_equal;
    first [ apply xfer_aa_full; assumption
          | apply xfer_aa_none; assumption
          | assumption ].
Qed.

Lemma xfer32_null_is_full_coverage_inst :
  Forall premul [px_a; px_b] /\ Forall premul [px_b; px_a] /\
  xfer32 (Create tt Plus) [px_a; px_b] [px_b; px_a] 2 (Some (repeat 255 2))
  = xfer32 (Create tt Plus) [px_a; px_b] [px_b; px_a] 2 None /\
  xfer32 (Create tt Plus) [px_a; px_b] [px_b; px_a] 2 (Some (repeat 0 2))
  = [px_a; px_b].
Proof.
  assert (Forall premul [px_a; px_b]) as H1
    by exact (Forall_cons _ px_a_premul
                (Forall_cons _ px_b_premul (Forall_nil _))).
  assert (Forall premul [px_b; px_a]) as H2
    by exact (Forall_cons _ px_b_premul
                (Forall_cons _ px_a_premul (Forall_nil _))).
  split; [exact H1|]. split; [exact H2|].
  exact (xfer32_null_is_full_coverage unit (Create tt Plus) [px_a; px_b]
           [px_b; px_a] 2 H1 H2).
Defined.

(** X19. In every build, a handler the factory returns is the one for the
    request: its mode is the requested mode and it holds the [rec] it was
    given. *)
Theorem factory_handler_is_for_request (ProcCoeff : Type)
    (cfg : BuildConfig) (rec : ProcCoeff) (mode : Mode)
    (x : SkT4pxXfermode ProcCoeff) :
  SkCreate4pxXfermode cfg rec mode = Some x ->
  fMode x = mode /\ fRec x = rec.
Proof.
  unfold SkCreate4pxXfermode.
  destruct (negb (SK_CPU_ARM32 cfg) || SK_ARM_HAS_NEON cfg);
    [|discriminate].
  destruct (SK_SUPPORT_LEGACY_XFERMODES cfg), mode; cbv zeta;
    intros H; try discriminate H; inversion H; subst; split; reflexivity.
Qed.

Lemma factory_handler_is_for_request_inst :
  SkCreate4pxXfermode legacy_build tt kScreen_Mode
  = Some (Create tt Screen) /\
  fMode (Create tt Screen) = kScreen_Mode /\ fRec (Create tt Screen) = tt.
Proof.
  split; [reflexivity|].
  exact (factory_handler_is_for_request unit legacy_build tt kScreen_Mode
           (Create tt Screen) eq_refl).
Defined.

